(** * Verification of the vegafusion runtime: Spark-SQL transpiler, task
    dispatch, transform pipeline runner and aggregate extraction.

    Shallow embedding of
    - [src/vegafusion-runtime/src/sql/spark.rs]
    - [src/vegafusion-runtime/src/signal/mod.rs]
    - [src/vegafusion-runtime/src/task_graph/task.rs]
    - [src/vegafusion-runtime/src/transform/pipeline.rs]
    - [src/vegafusion-runtime/src/data/util.rs]
    together with the fragments of the sqlparser AST and of DataFusion's
    logical plans that these functions read and build. *)

From Stdlib Require Import String Ascii.
From stdpp Require Import base list strings pretty gmap sorting.

#[local] Set Warnings "-register-all".
#[local] Open Scope string_scope.

(** Rust's [Result]: the error channel of every fallible function. *)
Inductive Result (A E : Type) := Ok (a : A) | Err (e : E).
Arguments Ok {A E} a.
Arguments Err {A E} e.

(** [vegafusion_common::error::VegaFusionError], by the constructors used in
    the embedded code; errors raised by collaborators outside the embedded
    files are carried as [External], a Rust panic ([unimplemented!()]) as
    [Panic]. *)
Inductive VegaFusionError :=
| Internal (msg : string)
| Unparser (msg : string)
| External (msg : string)
| Panic (msg : string).

(** The [?] operator. *)
Definition bind {A B} {E} (r : Result A E) (k : A -> Result B E) : Result B E :=
  match r with Ok a => k a | Err e => Err e end.

(** [Option::unwrap] on [None] panics. *)
Definition unwrap {A} (o : option A) : Result A VegaFusionError :=
  match o with Some a => Ok a | None => Err (Panic "called `Option::unwrap()` on a `None` value") end.


(** Conjunctions over the elements of a list / option, as functions so that
    nested fixpoints can recurse through them. *)
Fixpoint LAll {A} (P : A -> Prop) (l : list A) : Prop :=
  match l with [] => True | x :: l' => P x /\ LAll P l' end.
Definition OAll {A} (P : A -> Prop) (o : option A) : Prop :=
  match o with None => True | Some x => P x end.

Fixpoint LAll_gen {A} (P : A -> Prop) (H : forall x, P x) (l : list A) : LAll P l :=
  match l as l0 return LAll P l0 with
  | [] => I
  | x :: l' => conj (H x) (LAll_gen P H l')
  end.
Definition OAll_gen {A} (P : A -> Prop) (H : forall x, P x) (o : option A) : OAll P o :=
  match o as o0 return OAll P o0 with None => I | Some x => H x end.

Lemma LAll_map {A B} (P : B -> Prop) (f : A -> B) l :
  LAll (fun x => P (f x)) l -> LAll P (map f l).
Proof. induction l; simpl; tauto. Qed.
Lemma OAll_map {A B} (P : B -> Prop) (f : A -> B) o :
  OAll (fun x => P (f x)) o -> OAll P (option_map f o).
Proof. destruct o; simpl; tauto. Qed.
Lemma LAll_impl {A} (P Q : A -> Prop) l :
  (forall x, P x -> Q x) -> LAll P l -> LAll Q l.
Proof. induction l; simpl; firstorder. Qed.
Lemma OAll_impl {A} (P Q : A -> Prop) o :
  (forall x, P x -> Q x) -> OAll P o -> OAll Q o.
Proof. destruct o; simpl; firstorder. Qed.
Lemma LAll_and {A} (P Q : A -> Prop) l :
  LAll P l -> LAll Q l -> LAll (fun x => P x /\ Q x) l.
Proof. induction l; simpl; tauto. Qed.
Lemma OAll_and {A} (P Q : A -> Prop) o :
  OAll P o -> OAll Q o -> OAll (fun x => P x /\ Q x) o.
Proof. destruct o; simpl; tauto. Qed.
Lemma LAll_map_id {A} (f : A -> A) l : LAll (fun x => f x = x) l -> map f l = l.
Proof. induction l; simpl; intros; [done|]. f_equal; tauto. Qed.
Lemma OAll_map_id {A} (f : A -> A) o : OAll (fun x => f x = x) o -> option_map f o = o.
Proof. destruct o; simpl; intros; [f_equal|]; done. Qed.
Lemma LAll_map_impl {A B} (P : B -> Prop) (Q : A -> Prop) (f : A -> B) l :
  (forall x, Q x -> P (f x)) -> LAll Q l -> LAll P (map f l).
Proof. intros H. induction l; simpl; firstorder. Qed.
Lemma OAll_map_impl {A B} (P : B -> Prop) (Q : A -> Prop) (f : A -> B) o :
  (forall x, Q x -> P (f x)) -> OAll Q o -> OAll P (option_map f o).
Proof. intros H. destruct o; simpl; firstorder. Qed.
Lemma LAll_map_id_impl {A} (Q : A -> Prop) (f : A -> A) l :
  (forall x, Q x -> f x = x) -> LAll Q l -> map f l = l.
Proof. intros H. induction l; simpl; intros; [done|]. f_equal; firstorder. Qed.
Lemma OAll_map_id_impl {A} (Q : A -> Prop) (f : A -> A) o :
  (forall x, Q x -> f x = x) -> OAll Q o -> option_map f o = o.
Proof. intros H. destruct o; simpl; intros; [f_equal|]; firstorder. Qed.
Lemma LAll_and_impl {A} (P Q R : A -> Prop) l :
  (forall x, P x -> Q x -> R x) -> LAll P l -> LAll Q l -> LAll R l.
Proof. intros H. induction l; simpl; firstorder. Qed.
Lemma OAll_and_impl {A} (P Q R : A -> Prop) o :
  (forall x, P x -> Q x -> R x) -> OAll P o -> OAll Q o -> OAll R o.
Proof. intros H. destruct o; simpl; firstorder. Qed.

(** ** The sqlparser AST (crate [sqlparser], module [ast])

    The fragment of [ast::Statement] that DataFusion's unparser emits for
    scans, filters, window functions and projections.  The types that hold
    expressions are parameterised by the expression type [E] so that [Expr]
    can be nested through them. *)
Module SqlAst.
#[local] Set Implicit Arguments.

Record Ident := mkIdent { value : string; quote_style : option ascii }.

(** [Ident::new]: an identifier without quotes. *)
Definition Ident_new (s : string) : Ident := mkIdent s None.

Definition ObjectName := list Ident.

Record Location := mkLocation { line : nat; column : nat }.
Record Span := mkSpan { span_start : Location; span_end : Location }.
Definition Span_empty : Span := mkSpan (mkLocation 0 0) (mkLocation 0 0).

Inductive Value :=
| Number (s : string) (long : bool)
| SingleQuotedString (s : string)
| Boolean (b : bool)
| Null.

Record ValueWithSpan := mkValueWithSpan { vws_value : Value; vws_span : Span }.

Inductive BinaryOperator :=
| Plus | Minus | Multiply | Divide | Gt | Lt | GtEq | LtEq | Eq | NotEq | And | Or.
Inductive UnaryOperator := UPlus | UMinus | UNot.

Record OrderByOptions := mkOrderByOptions { asc : option bool; nulls_first : option bool }.
Inductive WindowFrameUnits := Rows | Range | Groups.
Inductive DuplicateTreatment := Distinct | All.
Inductive NullTreatment := IgnoreNulls | RespectNulls.

Inductive WindowFrameBound (E : Type) :=
| CurrentRow
| Preceding (n : option E)
| Following (n : option E).
Arguments CurrentRow {E}. Arguments Preceding {E} n. Arguments Following {E} n.

Record WindowFrame (E : Type) := mkWindowFrame {
  units : WindowFrameUnits;
  start_bound : WindowFrameBound E;
  end_bound : option (WindowFrameBound E) }.
Arguments mkWindowFrame {E}.

Record WithFill (E : Type) := mkWithFill {
  fill_from : option E; fill_to : option E; fill_step : option E }.
Arguments mkWithFill {E}.

Record OrderByExpr (E : Type) := mkOrderByExpr {
  obe_expr : E; obe_options : OrderByOptions; with_fill : option (WithFill E) }.
Arguments mkOrderByExpr {E}.

Record WindowSpec (E : Type) := mkWindowSpec {
  window_name : option Ident;
  partition_by : list E;
  order_by : list (OrderByExpr E);
  window_frame : option (WindowFrame E) }.
Arguments mkWindowSpec {E}.

Inductive WindowType (E : Type) := WindowSpecT (ws : WindowSpec E) | NamedWindow (i : Ident).
Arguments WindowSpecT {E} ws. Arguments NamedWindow {E} i.

Inductive FunctionArgExpr (E : Type) :=
| FAExpr (e : E) | QualifiedWildcard (n : ObjectName) | FAWildcard.
Arguments FAExpr {E} e. Arguments QualifiedWildcard {E} n. Arguments FAWildcard {E}.

Inductive FunctionArg (E : Type) :=
| Named (name : Ident) (arg : FunctionArgExpr E)
| Unnamed (arg : FunctionArgExpr E).
Arguments Named {E} name arg. Arguments Unnamed {E} arg.

(** The argument clauses of [FunctionArgumentList] (ORDER BY / LIMIT inside a
    call) and [FunctionArguments::Subquery] are outside the fragment. *)
Record FunctionArgumentList (E : Type) := mkFunctionArgumentList {
  duplicate_treatment : option DuplicateTreatment;
  fal_args : list (FunctionArg E) }.
Arguments mkFunctionArgumentList {E}.

Inductive FunctionArguments (E : Type) := FANone | FAList (l : FunctionArgumentList E).
Arguments FANone {E}. Arguments FAList {E} l.

Record Function (E : Type) := mkFunction {
  name : ObjectName;
  uses_odbc_syntax : bool;
  parameters : FunctionArguments E;
  args : FunctionArguments E;
  filter : option E;
  null_treatment : option NullTreatment;
  over : option (WindowType E);
  within_group : list (OrderByExpr E) }.
Arguments mkFunction {E}.

Inductive Expr :=
| Identifier (i : Ident)
| CompoundIdentifier (l : list Ident)
| EValue (v : ValueWithSpan)
| BinaryOp (left : Expr) (op : BinaryOperator) (right : Expr)
| UnaryOp (op : UnaryOperator) (e : Expr)
| Nested (e : Expr)
| EFunction (f : Function Expr).

(** Queries: [SELECT items FROM tables WHERE selection ORDER BY .. LIMIT ..];
    joins, GROUP BY and set operations are outside the fragment. *)
Inductive SelectItem :=
| UnnamedExpr (e : Expr)
| ExprWithAlias (e : Expr) (alias : Ident)
| SIWildcard.

Inductive TableFactor (Q : Type) :=
| Table (name : ObjectName)
| Derived (subquery : Q) (alias : option Ident).
Arguments Table {Q} name. Arguments Derived {Q} subquery alias.

Record Select (Q : Type) := mkSelect {
  projection : list SelectItem;
  from : list (TableFactor Q);
  selection : option Expr }.
Arguments mkSelect {Q}.

Inductive Query := mkQuery {
  body : Select Query;
  q_order_by : list (OrderByExpr Expr);
  limit : option Expr }.

Inductive Statement := SQuery (q : Query).

(** *** Maps over the expressions held by each node type *)
Section Maps.
Context {E E' : Type} (f : E -> E').

Definition WindowFrameBound_map (b : WindowFrameBound E) : WindowFrameBound E' :=
  match b with
  | CurrentRow => CurrentRow
  | Preceding n => Preceding (option_map f n)
  | Following n => Following (option_map f n)
  end.
Definition WindowFrame_map (w : WindowFrame E) : WindowFrame E' :=
  mkWindowFrame (units w) (WindowFrameBound_map (start_bound w))
    (option_map WindowFrameBound_map (end_bound w)).
Definition WithFill_map (w : WithFill E) : WithFill E' :=
  mkWithFill (option_map f (fill_from w)) (option_map f (fill_to w))
    (option_map f (fill_step w)).
Definition OrderByExpr_map (o : OrderByExpr E) : OrderByExpr E' :=
  mkOrderByExpr (f (obe_expr o)) (obe_options o) (option_map WithFill_map (with_fill o)).
Definition WindowSpec_map (w : WindowSpec E) : WindowSpec E' :=
  mkWindowSpec (window_name w) (map f (partition_by w))
    (map OrderByExpr_map (order_by w)) (option_map WindowFrame_map (window_frame w)).
Definition WindowType_map (w : WindowType E) : WindowType E' :=
  match w with WindowSpecT ws => WindowSpecT (WindowSpec_map ws) | NamedWindow i => NamedWindow i end.
Definition FunctionArgExpr_map (a : FunctionArgExpr E) : FunctionArgExpr E' :=
  match a with
  | FAExpr e => FAExpr (f e)
  | QualifiedWildcard n => QualifiedWildcard n
  | FAWildcard => FAWildcard
  end.
Definition FunctionArg_map (a : FunctionArg E) : FunctionArg E' :=
  match a with
  | Named n x => Named n (FunctionArgExpr_map x)
  | Unnamed x => Unnamed (FunctionArgExpr_map x)
  end.
Definition FunctionArgumentList_map (l : FunctionArgumentList E) : FunctionArgumentList E' :=
  mkFunctionArgumentList (duplicate_treatment l) (map FunctionArg_map (fal_args l)).
Definition FunctionArguments_map (a : FunctionArguments E) : FunctionArguments E' :=
  match a with FANone => FANone | FAList l => FAList (FunctionArgumentList_map l) end.
Definition Function_map (fn : Function E) : Function E' :=
  mkFunction (name fn) (uses_odbc_syntax fn) (FunctionArguments_map (parameters fn))
    (FunctionArguments_map (args fn)) (option_map f (filter fn)) (null_treatment fn)
    (option_map WindowType_map (over fn)) (map OrderByExpr_map (within_group fn)).
End Maps.

(** *** Every expression held by a node satisfies [P] *)
Section Alls.
Context {E : Type} (P : E -> Prop).

Definition WindowFrameBound_all (b : WindowFrameBound E) : Prop :=
  match b with CurrentRow => True | Preceding n => OAll P n | Following n => OAll P n end.
Definition WindowFrame_all (w : WindowFrame E) : Prop :=
  WindowFrameBound_all (start_bound w) /\ OAll WindowFrameBound_all (end_bound w).
Definition WithFill_all (w : WithFill E) : Prop :=
  OAll P (fill_from w) /\ OAll P (fill_to w) /\ OAll P (fill_step w).
Definition OrderByExpr_all (o : OrderByExpr E) : Prop :=
  P (obe_expr o) /\ OAll WithFill_all (with_fill o).
Definition WindowSpec_all (w : WindowSpec E) : Prop :=
  LAll P (partition_by w) /\ LAll OrderByExpr_all (order_by w)
  /\ OAll WindowFrame_all (window_frame w).
Definition WindowType_all (w : WindowType E) : Prop :=
  match w with WindowSpecT ws => WindowSpec_all ws | NamedWindow _ => True end.
Definition FunctionArgExpr_all (a : FunctionArgExpr E) : Prop :=
  match a with FAExpr e => P e | _ => True end.
Definition FunctionArg_all (a : FunctionArg E) : Prop :=
  match a with Named _ x => FunctionArgExpr_all x | Unnamed x => FunctionArgExpr_all x end.
Definition FunctionArgumentList_all (l : FunctionArgumentList E) : Prop :=
  LAll FunctionArg_all (fal_args l).
Definition FunctionArguments_all (a : FunctionArguments E) : Prop :=
  match a with FANone => True | FAList l => FunctionArgumentList_all l end.
Definition Function_all (fn : Function E) : Prop :=
  FunctionArguments_all (parameters fn) /\ FunctionArguments_all (args fn)
  /\ OAll P (filter fn) /\ OAll WindowType_all (over fn)
  /\ LAll OrderByExpr_all (within_group fn).

Section Gen.
Variable H : forall x, P x.
Definition WindowFrameBound_gen (b : WindowFrameBound E) : WindowFrameBound_all b :=
  match b as b0 return WindowFrameBound_all b0 with
  | CurrentRow => I | Preceding n => OAll_gen P H n | Following n => OAll_gen P H n
  end.
Definition WindowFrame_gen (w : WindowFrame E) : WindowFrame_all w :=
  conj (WindowFrameBound_gen _) (OAll_gen _ WindowFrameBound_gen _).
Definition WithFill_gen (w : WithFill E) : WithFill_all w :=
  conj (OAll_gen P H _) (conj (OAll_gen P H _) (OAll_gen P H _)).
Definition OrderByExpr_gen (o : OrderByExpr E) : OrderByExpr_all o :=
  conj (H _) (OAll_gen _ WithFill_gen _).
Definition WindowSpec_gen (w : WindowSpec E) : WindowSpec_all w :=
  conj (LAll_gen P H _) (conj (LAll_gen _ OrderByExpr_gen _) (OAll_gen _ WindowFrame_gen _)).
Definition WindowType_gen (w : WindowType E) : WindowType_all w :=
  match w as w0 return WindowType_all w0 with
  | WindowSpecT ws => WindowSpec_gen ws | NamedWindow _ => I
  end.
Definition FunctionArgExpr_gen (a : FunctionArgExpr E) : FunctionArgExpr_all a :=
  match a as a0 return FunctionArgExpr_all a0 with
  | FAExpr e => H e | QualifiedWildcard _ => I | FAWildcard => I
  end.
Definition FunctionArg_gen (a : FunctionArg E) : FunctionArg_all a :=
  match a as a0 return FunctionArg_all a0 with
  | Named _ x => FunctionArgExpr_gen x | Unnamed x => FunctionArgExpr_gen x
  end.
Definition FunctionArguments_gen (a : FunctionArguments E) : FunctionArguments_all a :=
  match a as a0 return FunctionArguments_all a0 with
  | FANone => I | FAList l => LAll_gen _ FunctionArg_gen (fal_args l)
  end.
Definition Function_gen (fn : Function E) : Function_all fn :=
  conj (FunctionArguments_gen _) (conj (FunctionArguments_gen _)
    (conj (OAll_gen P H _) (conj (OAll_gen _ WindowType_gen _)
      (LAll_gen _ OrderByExpr_gen _)))).
End Gen.
End Alls.

(** Induction over expressions, with the nested positions collected by
    [Function_all]. *)
Definition Expr_ind' (P : Expr -> Prop)
  (HI : forall i, P (Identifier i))
  (HC : forall l, P (CompoundIdentifier l))
  (HV : forall v, P (EValue v))
  (HB : forall l op r, P l -> P r -> P (BinaryOp l op r))
  (HU : forall op e, P e -> P (UnaryOp op e))
  (HN : forall e, P e -> P (Nested e))
  (HF : forall fn, Function_all P fn -> P (EFunction fn)) : forall e, P e :=
  fix IH e := match e as e0 return P e0 with
  | Identifier i => HI i
  | CompoundIdentifier l => HC l
  | EValue v => HV v
  | BinaryOp l op r => HB l op r (IH l) (IH r)
  | UnaryOp op x => HU op x (IH x)
  | Nested x => HN x (IH x)
  | EFunction fn => HF fn (Function_gen P IH fn)
  end.

(** *** Lemmas on the maps and the [_all] predicates *)
Ltac ast_t :=
  repeat match goal with
  | H : _ /\ _ |- _ => destruct H
  | |- _ /\ _ => split
  | |- True => exact I
  | |- LAll _ (map _ _) => eapply LAll_map_impl; [|eassumption]; intros; simpl in *
  | |- OAll _ (option_map _ _) => eapply OAll_map_impl; [|eassumption]; intros; simpl in *
  | |- map _ _ = _ => eapply LAll_map_id_impl; [|eassumption]; intros; simpl in *
  | |- option_map _ _ = _ => eapply OAll_map_id_impl; [|eassumption]; intros; simpl in *
  | |- LAll _ _ => first [eapply LAll_and_impl; [|eassumption|eassumption]; intros; simpl in *
                         | eapply LAll_impl; [|eassumption]; intros; simpl in *]
  | |- OAll _ _ => first [eapply OAll_and_impl; [|eassumption|eassumption]; intros; simpl in *
                         | eapply OAll_impl; [|eassumption]; intros; simpl in *]
  | |- _ => progress (f_equal; simpl in * )
  | |- _ => eauto
  end.

Section AllLemmas.
Context {E : Type}.
Implicit Types (P Q : E -> Prop) (f : E -> E).

Local Ltac lem_t := intros; simpl in *; repeat case_match; simplify_eq; simpl in *; ast_t.

Lemma WindowFrameBound_map_all P f b :
  WindowFrameBound_all (fun x => P (f x)) b -> WindowFrameBound_all P (WindowFrameBound_map f b).
Proof. destruct b; lem_t. Qed.
Lemma WindowFrame_map_all P f w :
  WindowFrame_all (fun x => P (f x)) w -> WindowFrame_all P (WindowFrame_map f w).
Proof. destruct w; unfold WindowFrame_all; lem_t; apply WindowFrameBound_map_all; done. Qed.
Lemma WithFill_map_all P f w :
  WithFill_all (fun x => P (f x)) w -> WithFill_all P (WithFill_map f w).
Proof. destruct w; unfold WithFill_all; lem_t. Qed.
Lemma OrderByExpr_map_all P f o :
  OrderByExpr_all (fun x => P (f x)) o -> OrderByExpr_all P (OrderByExpr_map f o).
Proof. destruct o; unfold OrderByExpr_all; lem_t; apply WithFill_map_all; done. Qed.
Lemma WindowSpec_map_all P f w :
  WindowSpec_all (fun x => P (f x)) w -> WindowSpec_all P (WindowSpec_map f w).
Proof.
  destruct w; unfold WindowSpec_all; lem_t;
    [apply OrderByExpr_map_all|apply WindowFrame_map_all]; done.
Qed.
Lemma WindowType_map_all P f w :
  WindowType_all (fun x => P (f x)) w -> WindowType_all P (WindowType_map f w).
Proof. destruct w; lem_t. apply WindowSpec_map_all; done. Qed.
Lemma FunctionArgExpr_map_all P f a :
  FunctionArgExpr_all (fun x => P (f x)) a -> FunctionArgExpr_all P (FunctionArgExpr_map f a).
Proof. destruct a; lem_t. Qed.
Lemma FunctionArg_map_all P f a :
  FunctionArg_all (fun x => P (f x)) a -> FunctionArg_all P (FunctionArg_map f a).
Proof. destruct a; lem_t; apply FunctionArgExpr_map_all; done. Qed.
Lemma FunctionArguments_map_all P f a :
  FunctionArguments_all (fun x => P (f x)) a -> FunctionArguments_all P (FunctionArguments_map f a).
Proof.
  destruct a as [|[dt l]]; simpl; [done|]. unfold FunctionArgumentList_all; simpl.
  intros H. eapply LAll_map_impl; [|exact H]. intros. apply FunctionArg_map_all; done.
Qed.
Lemma Function_map_all P f fn :
  Function_all (fun x => P (f x)) fn -> Function_all P (Function_map f fn).
Proof.
  destruct fn; unfold Function_all; lem_t;
    first [apply FunctionArguments_map_all | apply WindowType_map_all
          | apply OrderByExpr_map_all]; done.
Qed.

Lemma WindowFrameBound_all_impl P Q b :
  (forall x, P x -> Q x) -> WindowFrameBound_all P b -> WindowFrameBound_all Q b.
Proof. destruct b; lem_t. Qed.
Lemma WindowFrame_all_impl P Q w :
  (forall x, P x -> Q x) -> WindowFrame_all P w -> WindowFrame_all Q w.
Proof. destruct w; unfold WindowFrame_all; lem_t; eapply WindowFrameBound_all_impl; eauto. Qed.
Lemma WithFill_all_impl P Q w :
  (forall x, P x -> Q x) -> WithFill_all P w -> WithFill_all Q w.
Proof. destruct w; unfold WithFill_all; lem_t. Qed.
Lemma OrderByExpr_all_impl P Q o :
  (forall x, P x -> Q x) -> OrderByExpr_all P o -> OrderByExpr_all Q o.
Proof. destruct o; unfold OrderByExpr_all; lem_t; eapply WithFill_all_impl; eauto. Qed.
Lemma WindowSpec_all_impl P Q w :
  (forall x, P x -> Q x) -> WindowSpec_all P w -> WindowSpec_all Q w.
Proof.
  destruct w; unfold WindowSpec_all; lem_t;
    [eapply OrderByExpr_all_impl|eapply WindowFrame_all_impl]; eauto.
Qed.
Lemma WindowType_all_impl P Q w :
  (forall x, P x -> Q x) -> WindowType_all P w -> WindowType_all Q w.
Proof. destruct w; lem_t; eapply WindowSpec_all_impl; eauto. Qed.
Lemma FunctionArgExpr_all_impl P Q a :
  (forall x, P x -> Q x) -> FunctionArgExpr_all P a -> FunctionArgExpr_all Q a.
Proof. destruct a; lem_t. Qed.
Lemma FunctionArg_all_impl P Q a :
  (forall x, P x -> Q x) -> FunctionArg_all P a -> FunctionArg_all Q a.
Proof. destruct a; lem_t; eapply FunctionArgExpr_all_impl; eauto. Qed.
Lemma FunctionArguments_all_impl P Q a :
  (forall x, P x -> Q x) -> FunctionArguments_all P a -> FunctionArguments_all Q a.
Proof.
  destruct a as [|[dt l]]; simpl; [done|]. unfold FunctionArgumentList_all; simpl.
  intros HPQ H. eapply LAll_impl; [|exact H]. intros. eapply FunctionArg_all_impl; eauto.
Qed.
Lemma Function_all_impl P Q fn :
  (forall x, P x -> Q x) -> Function_all P fn -> Function_all Q fn.
Proof.
  destruct fn; unfold Function_all; lem_t;
    first [eapply FunctionArguments_all_impl | eapply WindowType_all_impl
          | eapply OrderByExpr_all_impl]; eauto.
Qed.
End AllLemmas.

Section IdLemmas.
Context {E : Type}.
Implicit Types (P Q : E -> Prop) (f : E -> E).
Local Ltac lem_t := intros; simpl in *; ast_t.


Local Ltac and_t :=
  intros; simpl in *;
  repeat match goal with
  | H : _ /\ _ |- _ => destruct H
  | |- _ /\ _ => split
  | |- True => exact I
  | H1 : OAll ?P ?o, H2 : OAll ?Q ?o |- OAll _ ?o =>
      tryif unify P Q then fail
      else (eapply OAll_and_impl; [|exact H1|exact H2]; clear H1 H2; intros; simpl in * )
  | H1 : LAll ?P ?o, H2 : LAll ?Q ?o |- LAll _ ?o =>
      tryif unify P Q then fail
      else (eapply LAll_and_impl; [|exact H1|exact H2]; clear H1 H2; intros; simpl in * )
  | |- _ => solve [eauto]
  end.

Lemma WindowFrameBound_all_and (R : E -> Prop) P Q b :
  (forall x, P x -> Q x -> R x) -> WindowFrameBound_all P b -> WindowFrameBound_all Q b ->
  WindowFrameBound_all R b.
Proof. destruct b; and_t. Qed.
Lemma WindowFrame_all_and (R : E -> Prop) P Q w :
  (forall x, P x -> Q x -> R x) -> WindowFrame_all P w -> WindowFrame_all Q w -> WindowFrame_all R w.
Proof. destruct w; unfold WindowFrame_all; and_t; eapply WindowFrameBound_all_and; eauto. Qed.
Lemma WithFill_all_and (R : E -> Prop) P Q w :
  (forall x, P x -> Q x -> R x) -> WithFill_all P w -> WithFill_all Q w -> WithFill_all R w.
Proof. destruct w; unfold WithFill_all; and_t. Qed.
Lemma OrderByExpr_all_and (R : E -> Prop) P Q o :
  (forall x, P x -> Q x -> R x) -> OrderByExpr_all P o -> OrderByExpr_all Q o -> OrderByExpr_all R o.
Proof. destruct o; unfold OrderByExpr_all; and_t; eapply WithFill_all_and; eauto. Qed.
Lemma WindowSpec_all_and (R : E -> Prop) P Q w :
  (forall x, P x -> Q x -> R x) -> WindowSpec_all P w -> WindowSpec_all Q w -> WindowSpec_all R w.
Proof.
  destruct w; unfold WindowSpec_all; and_t;
    [eapply OrderByExpr_all_and|eapply WindowFrame_all_and]; eauto.
Qed.
Lemma WindowType_all_and (R : E -> Prop) P Q w :
  (forall x, P x -> Q x -> R x) -> WindowType_all P w -> WindowType_all Q w -> WindowType_all R w.
Proof. destruct w; and_t; eapply WindowSpec_all_and; eauto. Qed.
Lemma FunctionArgExpr_all_and (R : E -> Prop) P Q a :
  (forall x, P x -> Q x -> R x) -> FunctionArgExpr_all P a -> FunctionArgExpr_all Q a ->
  FunctionArgExpr_all R a.
Proof. destruct a; and_t. Qed.
Lemma FunctionArg_all_and (R : E -> Prop) P Q a :
  (forall x, P x -> Q x -> R x) -> FunctionArg_all P a -> FunctionArg_all Q a -> FunctionArg_all R a.
Proof. destruct a; and_t; eapply FunctionArgExpr_all_and; eauto. Qed.
Lemma FunctionArguments_all_and (R : E -> Prop) P Q a :
  (forall x, P x -> Q x -> R x) -> FunctionArguments_all P a -> FunctionArguments_all Q a ->
  FunctionArguments_all R a.
Proof.
  destruct a as [|[dt l]]; simpl; [done|]. unfold FunctionArgumentList_all; simpl.
  intros HR H1 H2. eapply LAll_and_impl; [|exact H1|exact H2].
  intros. eapply FunctionArg_all_and; eauto.
Qed.
Lemma Function_all_and (R : E -> Prop) P Q fn :
  (forall x, P x -> Q x -> R x) -> Function_all P fn -> Function_all Q fn -> Function_all R fn.
Proof.
  destruct fn; unfold Function_all; and_t;
    first [eapply FunctionArguments_all_and | eapply WindowType_all_and
          | eapply OrderByExpr_all_and]; eauto.
Qed.
End IdLemmas.

(** *** The expression visitor [visit_expressions_mut]

    [sqlparser::ast::visit_expressions_mut] calls the closure on every
    expression of the statement in post-order ([post_visit_expr]): the
    children of a node are visited before the node itself.  The closures of
    [spark.rs] carry no state, so a visit is a bottom-up map. *)
Definition Expr_map_children (g : Expr -> Expr) (e : Expr) : Expr :=
  match e with
  | BinaryOp l op r => BinaryOp (g l) op (g r)
  | UnaryOp op x => UnaryOp op (g x)
  | Nested x => Nested (g x)
  | EFunction fn => EFunction (Function_map g fn)
  | Identifier _ | CompoundIdentifier _ | EValue _ => e
  end.

Definition Expr_children_all (R : Expr -> Prop) (e : Expr) : Prop :=
  match e with
  | BinaryOp l _ r => R l /\ R r
  | UnaryOp _ x => R x
  | Nested x => R x
  | EFunction fn => Function_all R fn
  | Identifier _ | CompoundIdentifier _ | EValue _ => True
  end.

(** [AllE P e]: every expression node of [e] satisfies [P]. *)
Fixpoint AllE (P : Expr -> Prop) (e : Expr) : Prop :=
  P e /\ Expr_children_all (AllE P) e.

Definition SelectItem_map (g : Expr -> Expr) (i : SelectItem) : SelectItem :=
  match i with
  | UnnamedExpr e => UnnamedExpr (g e)
  | ExprWithAlias e a => ExprWithAlias (g e) a
  | SIWildcard => SIWildcard
  end.
Definition TableFactor_map {Q Q'} (gq : Q -> Q') (t : TableFactor Q) : TableFactor Q' :=
  match t with Table n => Table n | Derived q a => Derived (gq q) a end.
Definition Select_map {Q Q'} (g : Expr -> Expr) (gq : Q -> Q') (s : Select Q) : Select Q' :=
  mkSelect (map (SelectItem_map g) (projection s)) (map (TableFactor_map gq) (from s))
    (option_map g (selection s)).

Definition SelectItem_all (R : Expr -> Prop) (i : SelectItem) : Prop :=
  match i with UnnamedExpr e => R e | ExprWithAlias e _ => R e | SIWildcard => True end.
Definition TableFactor_all {Q} (RQ : Q -> Prop) (t : TableFactor Q) : Prop :=
  match t with Table _ => True | Derived q _ => RQ q end.
Definition Select_all {Q} (R : Expr -> Prop) (RQ : Q -> Prop) (s : Select Q) : Prop :=
  LAll (SelectItem_all R) (projection s) /\ LAll (TableFactor_all RQ) (from s)
  /\ OAll R (selection s).

(** [Query_all R q]: every top-level expression of [q] and of its nested
    subqueries satisfies [R]. *)
Fixpoint Query_all (R : Expr -> Prop) (q : Query) : Prop :=
  match q with
  | mkQuery b ob lim => Select_all R (Query_all R) b /\ LAll (OrderByExpr_all R) ob /\ OAll R lim
  end.
Definition Statement_all (R : Expr -> Prop) (s : Statement) : Prop :=
  match s with SQuery q => Query_all R q end.

Section Visit.
Variable f : Expr -> Expr.

Fixpoint visit_expr (e : Expr) : Expr := f (Expr_map_children visit_expr e).

Fixpoint visit_query (q : Query) : Query :=
  match q with
  | mkQuery b ob lim =>
      mkQuery (Select_map visit_expr visit_query b) (map (OrderByExpr_map visit_expr) ob)
        (option_map visit_expr lim)
  end.
End Visit.

Definition visit_expressions_mut (s : Statement) (f : Expr -> Expr) : Statement :=
  match s with SQuery q => SQuery (visit_query f q) end.


Lemma AllE_and (P Q : Expr -> Prop) e :
  AllE P e -> AllE Q e -> AllE (fun x => P x /\ Q x) e.
Proof.
  induction e using Expr_ind'; cbn [AllE Expr_children_all];
    intros [Hp Hc] [Hq Hd]; (split; [auto|]); auto.
  - destruct Hc, Hd; auto.
  - assert (Function_all (fun x => AllE Q x -> AllE (fun y => P y /\ Q y) x) fn) as H1
      by (eapply Function_all_and; [|exact H|exact Hc]; auto).
    eapply Function_all_and; [|exact H1|exact Hd]. auto.
Qed.

Lemma AllE_root (P : Expr -> Prop) e : AllE P e -> P e.
Proof. destruct e; simpl; tauto. Qed.


Lemma visit_expr_AllE (f : Expr -> Expr) (P : Expr -> Prop) :
  (forall e, Expr_children_all (AllE P) e -> AllE P (f e)) ->
  forall e, AllE P (visit_expr f e).
Proof.
  intros Hf. induction e using Expr_ind'; cbn [visit_expr Expr_map_children];
    apply Hf; cbn [Expr_children_all]; auto.
  apply Function_map_all. exact H.
Qed.

Definition Select_all_gen {Q} (R : Expr -> Prop) (RQ : Q -> Prop)
  (HR : forall e, R e) (HQ : forall q, RQ q) (s : Select Q) : Select_all R RQ s :=
  conj (LAll_gen _ (fun i => match i as i0 return SelectItem_all R i0 with
                             | UnnamedExpr e => HR e | ExprWithAlias e _ => HR e
                             | SIWildcard => I end) _)
    (conj (LAll_gen _ (fun t => match t as t0 return TableFactor_all RQ t0 with
                               | Table _ => I | Derived q _ => HQ q end) _)
       (OAll_gen _ HR _)).

Definition Query_ind' (P : Query -> Prop)
  (H : forall b ob lim, Select_all (fun _ => True) P b -> P (mkQuery b ob lim)) :
  forall q, P q :=
  fix IH q := match q as q0 return P q0 with
  | mkQuery b ob lim => H b ob lim (Select_all_gen _ _ (fun _ => I) IH b)
  end.

Lemma visit_query_all (f : Expr -> Expr) (R1 R2 : Expr -> Prop) :
  (forall e, R1 e -> R2 (visit_expr f e)) ->
  forall q, Query_all R1 q -> Query_all R2 (visit_query f q).
Proof.
  intros Hf. induction q using Query_ind'; simpl.
  destruct b as [pr fr se]; unfold Select_all in *; simpl in *.
  intros [(Hpr & Hfr & Hse) [Hob Hlim]]. destruct H as (_ & Hq & _).
  repeat split.
  - eapply LAll_map_impl; [|exact Hpr]. intros [] ?; simpl in *; auto.
  - eapply LAll_map_impl; [|eapply LAll_and; [exact Hq|exact Hfr]].
    intros [] [? ?]; simpl in *; auto.
  - eapply OAll_map_impl; [|exact Hse]. auto.
  - eapply LAll_map_impl; [|exact Hob]. intros. apply OrderByExpr_map_all.
    eapply OrderByExpr_all_impl; [|eassumption]. auto.
  - eapply OAll_map_impl; [|exact Hlim]. auto.
Qed.


Lemma Query_all_gen (R : Expr -> Prop) : (forall e, R e) -> forall q, Query_all R q.
Proof.
  intros HR. induction q using Query_ind'; simpl. repeat split.
  - apply LAll_gen. intros []; simpl; auto.
  - destruct H as (_ & H & _). eapply LAll_impl; [|exact H]. intros [] ?; simpl; auto.
  - apply OAll_gen; auto.
  - apply LAll_gen. intros. apply OrderByExpr_gen. auto.
  - apply OAll_gen; auto.
Qed.

Lemma Query_all_and (R1 R2 R3 : Expr -> Prop) :
  (forall e, R1 e -> R2 e -> R3 e) ->
  forall q, Query_all R1 q -> Query_all R2 q -> Query_all R3 q.
Proof.
  intros HR. induction q using Query_ind'; simpl.
  destruct b as [pr fr se]; unfold Select_all in *; simpl in *.
  intros [(Hpr & Hfr & Hse) [Hob Hlim]] [(Hpr' & Hfr' & Hse') [Hob' Hlim']].
  destruct H as (_ & Hq & _). repeat split.
  - eapply LAll_and_impl; [|exact Hpr|exact Hpr']. intros [] ? ?; simpl in *; auto.
  - eapply LAll_and_impl; [|eapply LAll_and; [exact Hq|exact Hfr]|exact Hfr'].
    intros [] [? ?] ?; simpl in *; auto.
  - eapply OAll_and_impl; [|exact Hse|exact Hse']. auto.
  - eapply LAll_and_impl; [|exact Hob|exact Hob']. intros. eapply OrderByExpr_all_and; eauto.
  - eapply OAll_and_impl; [|exact Hlim|exact Hlim']. auto.
Qed.

End SqlAst.

(** ** [Display] of the sqlparser AST ([Statement::to_string])

    sqlparser's [Display] implementations on the fragment above.  Quoted
    identifiers are printed between their quote characters; the escaping of
    quotes inside them is not modelled. *)
Module SqlDisplay.
Import SqlAst.

Definition join (sep : string) (l : list string) : string := String.concat sep l.

Definition Ident_to_string (i : Ident) : string :=
  match quote_style i with
  | None => value i
  | Some q => String q (value i ++ String (if Ascii.eqb q "["%char then "]"%char else q) "")
  end.

Definition ObjectName_to_string (n : ObjectName) : string := join "." (map Ident_to_string n).

(** [escape_single_quote_string]: a quote inside the literal is doubled. *)
Fixpoint escape_single_quote (s : string) : string :=
  match s with
  | EmptyString => EmptyString
  | String c s' =>
      if Ascii.eqb c "'"%char then String c (String c (escape_single_quote s'))
      else String c (escape_single_quote s')
  end.

Definition Value_to_string (v : Value) : string :=
  match v with
  | Number s long => s ++ (if long then "L" else "")
  | SingleQuotedString s => "'" ++ escape_single_quote s ++ "'"
  | Boolean b => if b then "true" else "false"
  | Null => "NULL"
  end.

Definition BinaryOperator_to_string (op : BinaryOperator) : string :=
  match op with
  | Plus => "+" | Minus => "-" | Multiply => "*" | Divide => "/"
  | Gt => ">" | Lt => "<" | GtEq => ">=" | LtEq => "<=" | Eq => "=" | NotEq => "<>"
  | And => "AND" | Or => "OR"
  end.

Definition WindowFrameUnits_to_string (u : WindowFrameUnits) : string :=
  match u with Rows => "ROWS" | Range => "RANGE" | Groups => "GROUPS" end.

Section Fmt.
Context {E : Type} (fe : E -> string).

Definition WindowFrameBound_fmt (b : WindowFrameBound E) : string :=
  match b with
  | CurrentRow => "CURRENT ROW"
  | Preceding None => "UNBOUNDED PRECEDING"
  | Preceding (Some n) => fe n ++ " PRECEDING"
  | Following None => "UNBOUNDED FOLLOWING"
  | Following (Some n) => fe n ++ " FOLLOWING"
  end.

Definition WindowFrame_fmt (w : WindowFrame E) : string :=
  match end_bound w with
  | Some eb => WindowFrameUnits_to_string (units w) ++ " BETWEEN "
                 ++ WindowFrameBound_fmt (start_bound w) ++ " AND " ++ WindowFrameBound_fmt eb
  | None => WindowFrameUnits_to_string (units w) ++ " " ++ WindowFrameBound_fmt (start_bound w)
  end.

Definition opt_fmt (prefix : string) (o : option E) : string :=
  match o with None => "" | Some x => prefix ++ fe x end.

Definition WithFill_fmt (w : WithFill E) : string :=
  "WITH FILL" ++ opt_fmt " FROM " (fill_from w) ++ opt_fmt " TO " (fill_to w)
    ++ opt_fmt " STEP " (fill_step w).

Definition OrderByExpr_fmt (o : OrderByExpr E) : string :=
  fe (obe_expr o)
  ++ match asc (obe_options o) with Some true => " ASC" | Some false => " DESC" | None => "" end
  ++ match nulls_first (obe_options o) with
     | Some true => " NULLS FIRST" | Some false => " NULLS LAST" | None => "" end
  ++ match with_fill o with Some w => " " ++ WithFill_fmt w | None => "" end.

(** [WindowSpec]'s [Display]: the parts present, separated by one space. *)
Definition WindowSpec_fmt (w : WindowSpec E) : string :=
  join " "
    ((match window_name w with Some n => [Ident_to_string n] | None => [] end)
     ++ (match partition_by w with
         | [] => [] | l => ["PARTITION BY " ++ join ", " (map fe l)] end)
     ++ (match order_by w with
         | [] => [] | l => ["ORDER BY " ++ join ", " (map OrderByExpr_fmt l)] end)
     ++ (match window_frame w with Some fr => [WindowFrame_fmt fr] | None => [] end)).

Definition WindowType_fmt (w : WindowType E) : string :=
  match w with WindowSpecT ws => "(" ++ WindowSpec_fmt ws ++ ")" | NamedWindow i => Ident_to_string i end.

Definition FunctionArgExpr_fmt (a : FunctionArgExpr E) : string :=
  match a with
  | FAExpr e => fe e
  | QualifiedWildcard n => ObjectName_to_string n ++ ".*"
  | FAWildcard => "*"
  end.

Definition FunctionArg_fmt (a : FunctionArg E) : string :=
  match a with
  | Named n x => Ident_to_string n ++ " => " ++ FunctionArgExpr_fmt x
  | Unnamed x => FunctionArgExpr_fmt x
  end.

Definition FunctionArguments_fmt (a : FunctionArguments E) : string :=
  match a with
  | FANone => ""
  | FAList l =>
      "(" ++ match duplicate_treatment l with
             | Some Distinct => "DISTINCT " | Some All => "ALL " | None => "" end
      ++ join ", " (map FunctionArg_fmt (fal_args l)) ++ ")"
  end.

Definition Function_fmt (fn : Function E) : string :=
  (if uses_odbc_syntax fn then "{fn " else "")
  ++ ObjectName_to_string (name fn) ++ FunctionArguments_fmt (parameters fn)
  ++ FunctionArguments_fmt (args fn)
  ++ (if uses_odbc_syntax fn then "}" else "")
  ++ match within_group fn with
     | [] => "" | l => " WITHIN GROUP (ORDER BY " ++ join ", " (map OrderByExpr_fmt l) ++ ")" end
  ++ opt_fmt " FILTER (WHERE " (filter fn) ++ (match filter fn with Some _ => ")" | None => "" end)
  ++ match null_treatment fn with
     | Some IgnoreNulls => " IGNORE NULLS" | Some RespectNulls => " RESPECT NULLS" | None => "" end
  ++ match over fn with Some o => " OVER " ++ WindowType_fmt o | None => "" end.
End Fmt.

Fixpoint Expr_to_string (e : Expr) : string :=
  match e with
  | Identifier i => Ident_to_string i
  | CompoundIdentifier l => join "." (map Ident_to_string l)
  | EValue v => Value_to_string (vws_value v)
  | BinaryOp l op r =>
      Expr_to_string l ++ " " ++ BinaryOperator_to_string op ++ " " ++ Expr_to_string r
  | UnaryOp UNot x => "NOT " ++ Expr_to_string x
  | UnaryOp UMinus x => "-" ++ Expr_to_string x
  | UnaryOp UPlus x => "+" ++ Expr_to_string x
  | Nested x => "(" ++ Expr_to_string x ++ ")"
  | EFunction fn => Function_fmt Expr_to_string fn
  end.

Definition SelectItem_to_string (i : SelectItem) : string :=
  match i with
  | UnnamedExpr e => Expr_to_string e
  | ExprWithAlias e a => Expr_to_string e ++ " AS " ++ Ident_to_string a
  | SIWildcard => "*"
  end.

Fixpoint Query_to_string (q : Query) : string :=
  match q with
  | mkQuery (mkSelect pr fr se) ob lim =>
      "SELECT " ++ join ", " (map SelectItem_to_string pr)
      ++ (match fr with
          | [] => ""
          | _ => " FROM " ++ join ", " (map (fun t => match t with
                   | Table n => ObjectName_to_string n
                   | Derived sq a => "(" ++ Query_to_string sq ++ ")"
                       ++ match a with Some a' => " AS " ++ Ident_to_string a' | None => "" end
                   end) fr) end)
      ++ (match se with Some e => " WHERE " ++ Expr_to_string e | None => "" end)
      ++ (match ob with
          | [] => "" | _ => " ORDER BY " ++ join ", " (map (OrderByExpr_fmt Expr_to_string) ob) end)
      ++ (match lim with Some e => " LIMIT " ++ Expr_to_string e | None => "" end)
  end.

Definition Statement_to_string (s : Statement) : string :=
  match s with SQuery q => Query_to_string q end.
End SqlDisplay.

(** ** The AST rewrites of [sql/spark.rs] *)
Module SparkAst.
Import SqlAst SqlDisplay.

(** [str::to_lowercase] on ASCII text. *)
Definition ascii_to_lower (c : ascii) : ascii :=
  let n := nat_of_ascii c in
  if (65 <=? n)%nat && (n <=? 90)%nat then ascii_of_nat (n + 32) else c.
Fixpoint to_lowercase (s : string) : string :=
  match s with
  | EmptyString => EmptyString
  | String c s' => String (ascii_to_lower c) (to_lowercase s')
  end.

Definition with_over {E} (fn : Function E) (o : option (WindowType E)) : Function E :=
  mkFunction (name fn) (uses_odbc_syntax fn) (parameters fn) (args fn) (filter fn)
    (null_treatment fn) o (within_group fn).

(** The single ORDER BY element [monotonically_increasing_id()]. *)
Definition monotonically_increasing_id_order : OrderByExpr Expr :=
  mkOrderByExpr (Identifier (Ident_new "monotonically_increasing_id()"))
    (mkOrderByOptions None None) None.

(** The closure of [rewrite_row_number] (spark.rs, lines 59-76). *)
Definition row_number_closure (expr : Expr) : Expr :=
  match expr with
  | EFunction func =>
      if String.eqb (to_lowercase (ObjectName_to_string (name func))) "row_number" then
        match over func with
        | Some (WindowSpecT window_spec) =>
            EFunction (with_over func (Some (WindowSpecT
              (mkWindowSpec (window_name window_spec) (partition_by window_spec)
                 [monotonically_increasing_id_order] None))))
        | _ => expr
        end
      else expr
  | _ => expr
  end.

Definition rewrite_row_number (statement : Statement) : Statement :=
  visit_expressions_mut statement row_number_closure.

Definition SPECIAL_VALUES : list string :=
  ["nan"; "inf"; "infinity"; "+inf"; "+infinity"; "-inf"; "-infinity"].

(** [float('<num_str>')], the call built at spark.rs lines 88-106. *)
Definition float_call (num_str : string) (span : Span) : Function Expr :=
  mkFunction [Ident_new "float"] false FANone
    (FAList (mkFunctionArgumentList None
       [Unnamed (FAExpr (EValue (mkValueWithSpan (SingleQuotedString num_str) span)))]))
    None None None [].

(** The closure of [rewrite_inf_and_nan] (spark.rs, lines 84-111). *)
Definition inf_and_nan_closure (expr : Expr) : Expr :=
  match expr with
  | EValue value =>
      match vws_value value with
      | Number num_str _ =>
          if existsb (String.eqb (to_lowercase num_str)) SPECIAL_VALUES
          then EFunction (float_call num_str (vws_span value))
          else expr
      | _ => expr
      end
  | _ => expr
  end.

Definition rewrite_inf_and_nan (statement : Statement) : Statement :=
  visit_expressions_mut statement inf_and_nan_closure.
End SparkAst.

(** ** DataFusion logical expressions and plans (crates [datafusion_expr],
    [datafusion_common])

    The fragment built by the tests and the scenarios: scans, filters,
    projections, window nodes and sorts over column references, literals,
    binary expressions, aliases and function calls.  A [Float64] literal is
    represented by the text DataFusion prints for it ([0.0], [NaN], [inf],
    [-inf]); floating-point arithmetic is not modelled.  Subqueries inside
    expressions are outside the fragment. *)
Module DataFusion.
#[local] Set Implicit Arguments.

Inductive ScalarValue :=
| Float64 (v : option string)
| Int64 (v : option Z)
| Utf8 (v : option string)
| BooleanV (v : option bool).

Inductive Operator :=
| OpEq | OpNotEq | OpLt | OpLtEq | OpGt | OpGtEq | OpPlus | OpMinus | OpMultiply | OpDivide
| OpAnd | OpOr.

Inductive WindowFrameBound :=
| WPreceding (v : option Z) | WCurrentRow | WFollowing (v : option Z).

Record WindowFrame := mkWindowFrame {
  frame_units : SqlAst.WindowFrameUnits;
  frame_start : WindowFrameBound;
  frame_end : WindowFrameBound }.

(** DataFusion's default frame when a window has no ORDER BY. *)
Definition default_window_frame : WindowFrame :=
  mkWindowFrame SqlAst.Rows (WPreceding None) (WFollowing None).

(** [expr::Sort]. *)
Record Sort (E : Type) := mkSort { sort_expr : E; sort_asc : bool; sort_nulls_first : bool }.
Arguments mkSort {E}.
Arguments sort_expr {E}. Arguments sort_asc {E}. Arguments sort_nulls_first {E}.

Inductive Expr :=
| Column (relation : option string) (name : string)
| Literal (v : ScalarValue)
| BinaryExpr (left : Expr) (op : Operator) (right : Expr)
| Alias (e : Expr) (relation : option string) (name : string)
| Not (e : Expr)
| ScalarFunction (func : string) (args : list Expr)
| AggregateFunction (func : string) (args : list Expr) (distinct : bool)
| WindowFunction (func : string) (args : list Expr) (partition_by : list Expr)
    (order_by : list (Sort Expr)) (window_frame : WindowFrame).

(** [Column::from_name] and [col]: a column without relation qualifier. *)
Definition Column_from_name (name : string) : Expr := Column None name.
Definition col (name : string) : Expr := Column_from_name name.

(** [Expr::alias]. *)
Definition Expr_alias (e : Expr) (name : string) : Expr := Alias e None name.

Definition Sort_map {E E'} (f : E -> E') (s : Sort E) : Sort E' :=
  mkSort (f (sort_expr s)) (sort_asc s) (sort_nulls_first s).

(** [TreeNode::map_children] on expressions. *)
Definition Expr_map_children (g : Expr -> Expr) (e : Expr) : Expr :=
  match e with
  | Column _ _ | Literal _ => e
  | BinaryExpr l op r => BinaryExpr (g l) op (g r)
  | Alias x q n => Alias (g x) q n
  | Not x => Not (g x)
  | ScalarFunction f a => ScalarFunction f (map g a)
  | AggregateFunction f a d => AggregateFunction f (map g a) d
  | WindowFunction f a pb ob fr => WindowFunction f (map g a) (map g pb) (map (Sort_map g) ob) fr
  end.

(** [TreeNode::transform_up] with an infallible closure: children first,
    then the node. *)
Fixpoint transform_up (f : Expr -> Expr) (e : Expr) : Expr :=
  f (Expr_map_children (transform_up f) e).

(** [Expr::column_refs]: the columns an expression references, in order. *)
Fixpoint column_refs (e : Expr) : list (option string * string) :=
  match e with
  | Column q n => [(q, n)]
  | Literal _ => []
  | BinaryExpr l _ r => column_refs l ++ column_refs r
  | Alias x _ _ | Not x => column_refs x
  | ScalarFunction _ a | AggregateFunction _ a _ => concat (map column_refs a)
  | WindowFunction _ a pb ob _ =>
      concat (map column_refs a) ++ concat (map column_refs pb)
      ++ concat (map (fun s => column_refs (sort_expr s)) ob)
  end%list.

Definition Expr_ind' (P : Expr -> Prop)
  (HC : forall q n, P (Column q n))
  (HL : forall v, P (Literal v))
  (HB : forall l op r, P l -> P r -> P (BinaryExpr l op r))
  (HA : forall x q n, P x -> P (Alias x q n))
  (HN : forall x, P x -> P (Not x))
  (HS : forall f a, LAll P a -> P (ScalarFunction f a))
  (HG : forall f a d, LAll P a -> P (AggregateFunction f a d))
  (HW : forall f a pb ob fr, LAll P a -> LAll P pb -> LAll (fun s => P (sort_expr s)) ob ->
        P (WindowFunction f a pb ob fr)) : forall e, P e :=
  fix IH e := match e as e0 return P e0 with
  | Column q n => HC q n
  | Literal v => HL v
  | BinaryExpr l op r => HB l op r (IH l) (IH r)
  | Alias x q n => HA x q n (IH x)
  | Not x => HN x (IH x)
  | ScalarFunction f a => HS f a (LAll_gen P IH a)
  | AggregateFunction f a d => HG f a d (LAll_gen P IH a)
  | WindowFunction f a pb ob fr =>
      HW f a pb ob fr (LAll_gen P IH a) (LAll_gen P IH pb)
        (LAll_gen _ (fun s => IH (sort_expr s)) ob)
  end.

Inductive LogicalPlan :=
| TableScan (table_name : string) (fields : list string)
| Projection (expr : list Expr) (input : LogicalPlan)
| Filter (predicate : Expr) (input : LogicalPlan)
| Window (input : LogicalPlan) (window_expr : list Expr)
| SortNode (expr : list (Sort Expr)) (input : LogicalPlan) (fetch : option nat).

Definition is_projection (p : LogicalPlan) : bool :=
  match p with Projection _ _ => true | _ => false end.

(** [LogicalPlan::transform_up_with_subqueries]: the input first, then the
    node; an error of the closure stops the walk (no plan of the fragment
    holds a subquery). *)
Fixpoint plan_transform_up {E} (f : LogicalPlan -> Result LogicalPlan E) (p : LogicalPlan)
  : Result LogicalPlan E :=
  match p with
  | TableScan _ _ => f p
  | Projection es inp => bind (plan_transform_up f inp) (fun inp' => f (Projection es inp'))
  | Filter pr inp => bind (plan_transform_up f inp) (fun inp' => f (Filter pr inp'))
  | Window inp ws => bind (plan_transform_up f inp) (fun inp' => f (Window inp' ws))
  | SortNode es inp fe => bind (plan_transform_up f inp) (fun inp' => f (SortNode es inp' fe))
  end.
End DataFusion.


(** ** Unparsing a logical plan to a SQL statement

    Modelled from the spec: DataFusion's [Unparser::plan_to_sql] with the
    default [CustomDialect] and pretty printing, which is not part of this
    repository.  The model follows the select builder of DataFusion's
    [select_to_sql_recursively] on the plan fragment above:
    - a projection fills the SELECT list; a projection met when the list is
      already filled becomes a derived table [(...)] without alias;
    - a filter adds its predicate to the WHERE clause, as
      [existing AND new];
    - window nodes are skipped, and the columns of the SELECT list that
      name a window expression are replaced by that expression;
    - a scan gives the FROM table; with no projection the SELECT list is [*];
    - a [Float64] literal is printed as a number ([0.0], [NaN], [inf],
      [-inf]); identifiers of the fragment are printed without quotes, as
      the repository's test expectations show. *)
Module Unparser.
Import DataFusion.

Definition flat_name (relation : option string) (name : string) : string :=
  match relation with Some r => r ++ "." ++ name | None => name end.

Definition ScalarValue_to_string (v : ScalarValue) : string :=
  match v with
  | Float64 (Some s) | Utf8 (Some s) => s
  | Int64 (Some z) => pretty z
  | BooleanV (Some b) => if b then "true" else "false"
  | _ => "NULL"
  end.

Definition Operator_to_string (op : Operator) : string :=
  match op with
  | OpEq => "=" | OpNotEq => "!=" | OpLt => "<" | OpLtEq => "<=" | OpGt => ">" | OpGtEq => ">="
  | OpPlus => "+" | OpMinus => "-" | OpMultiply => "*" | OpDivide => "/"
  | OpAnd => "AND" | OpOr => "OR"
  end.

Definition WindowFrameBound_to_string (b : WindowFrameBound) : string :=
  match b with
  | WPreceding None => "UNBOUNDED PRECEDING"
  | WPreceding (Some z) => pretty z ++ " PRECEDING"
  | WCurrentRow => "CURRENT ROW"
  | WFollowing None => "UNBOUNDED FOLLOWING"
  | WFollowing (Some z) => pretty z ++ " FOLLOWING"
  end.

Definition WindowFrame_to_string (fr : WindowFrame) : string :=
  SqlDisplay.WindowFrameUnits_to_string (frame_units fr) ++ " BETWEEN "
  ++ WindowFrameBound_to_string (frame_start fr) ++ " AND "
  ++ WindowFrameBound_to_string (frame_end fr).

(** [Expr::schema_name]: the output column name of an expression. *)
Fixpoint schema_name (e : Expr) : string :=
  match e with
  | Column q n => flat_name q n
  | Literal v => ScalarValue_to_string v
  | BinaryExpr l op r => schema_name l ++ " " ++ Operator_to_string op ++ " " ++ schema_name r
  | Alias _ _ n => n
  | Not x => "NOT " ++ schema_name x
  | ScalarFunction f a => f ++ "(" ++ SqlDisplay.join "," (map schema_name a) ++ ")"
  | AggregateFunction f a d =>
      f ++ "(" ++ (if d then "DISTINCT " else "") ++ SqlDisplay.join "," (map schema_name a) ++ ")"
  | WindowFunction f a pb ob fr =>
      f ++ "(" ++ SqlDisplay.join "," (map schema_name a) ++ ")"
      ++ (match pb with [] => "" | _ => " PARTITION BY [" ++ SqlDisplay.join ", " (map schema_name pb) ++ "]" end)
      ++ (match ob with [] => "" | _ => " ORDER BY [" ++ SqlDisplay.join ", "
            (map (fun s => schema_name (sort_expr s)
                   ++ (if sort_asc s then " ASC" else " DESC")
                   ++ (if sort_nulls_first s then " NULLS FIRST" else " NULLS LAST")) ob) ++ "]" end)
      ++ " " ++ WindowFrame_to_string fr
  end.

Definition new_ident (s : string) : SqlAst.Ident := SqlAst.Ident_new s.

Definition scalar_to_sql (v : ScalarValue) : SqlAst.Expr :=
  SqlAst.EValue (SqlAst.mkValueWithSpan
    match v with
    | Float64 (Some s) => SqlAst.Number s false
    | Int64 (Some z) => SqlAst.Number (pretty z) false
    | Utf8 (Some s) => SqlAst.SingleQuotedString s
    | BooleanV (Some b) => SqlAst.Boolean b
    | _ => SqlAst.Null
    end SqlAst.Span_empty).

Definition op_to_sql (op : Operator) : SqlAst.BinaryOperator :=
  match op with
  | OpEq => SqlAst.Eq | OpNotEq => SqlAst.NotEq | OpLt => SqlAst.Lt | OpLtEq => SqlAst.LtEq
  | OpGt => SqlAst.Gt | OpGtEq => SqlAst.GtEq | OpPlus => SqlAst.Plus | OpMinus => SqlAst.Minus
  | OpMultiply => SqlAst.Multiply | OpDivide => SqlAst.Divide
  | OpAnd => SqlAst.And | OpOr => SqlAst.Or
  end.

Definition op_precedence (op : Operator) : nat :=
  match op with
  | OpOr => 5 | OpAnd => 10
  | OpEq | OpNotEq | OpLt | OpLtEq | OpGt | OpGtEq => 20
  | OpPlus | OpMinus => 30 | OpMultiply | OpDivide => 40
  end.

(** Pretty mode keeps the parentheses around an operand only where the
    operator precedence needs them. *)
Definition nest_operand (right_side : bool) (parent : Operator) (child : Expr) (s : SqlAst.Expr)
  : SqlAst.Expr :=
  match child with
  | BinaryExpr _ cop _ =>
      if (op_precedence cop <? op_precedence parent)%nat
         || (right_side && (op_precedence cop =? op_precedence parent)%nat
             && match parent with OpMinus | OpDivide => true | _ => false end)
      then SqlAst.Nested s else s
  | _ => s
  end.

Definition bound_to_sql (b : WindowFrameBound) : SqlAst.WindowFrameBound SqlAst.Expr :=
  match b with
  | WPreceding v => SqlAst.Preceding (option_map (fun z => scalar_to_sql (Int64 (Some z))) v)
  | WCurrentRow => SqlAst.CurrentRow
  | WFollowing v => SqlAst.Following (option_map (fun z => scalar_to_sql (Int64 (Some z))) v)
  end.

Definition frame_to_sql (fr : WindowFrame) : SqlAst.WindowFrame SqlAst.Expr :=
  SqlAst.mkWindowFrame (frame_units fr) (bound_to_sql (frame_start fr))
    (Some (bound_to_sql (frame_end fr))).

Definition call_to_sql (f : string) (dt : option SqlAst.DuplicateTreatment)
    (args : list SqlAst.Expr) (over : option (SqlAst.WindowType SqlAst.Expr))
  : SqlAst.Function SqlAst.Expr :=
  SqlAst.mkFunction [new_ident f] false SqlAst.FANone
    (SqlAst.FAList (SqlAst.mkFunctionArgumentList dt
       (map (fun a => SqlAst.Unnamed (SqlAst.FAExpr a)) args)))
    None None over [].

Definition sort_to_sql {E} (s : Sort E) (e : SqlAst.Expr) : SqlAst.OrderByExpr SqlAst.Expr :=
  SqlAst.mkOrderByExpr e (SqlAst.mkOrderByOptions (Some (sort_asc s)) (Some (sort_nulls_first s))) None.

(** [Unparser::expr_to_sql]; an alias below the top of a SELECT item is
    dropped. *)
Fixpoint expr_to_sql (e : Expr) : SqlAst.Expr :=
  match e with
  | Column (Some r) n => SqlAst.CompoundIdentifier [new_ident r; new_ident n]
  | Column None n => SqlAst.Identifier (new_ident n)
  | Literal v => scalar_to_sql v
  | BinaryExpr l op r =>
      SqlAst.BinaryOp (nest_operand false op l (expr_to_sql l)) (op_to_sql op)
        (nest_operand true op r (expr_to_sql r))
  | Alias x _ _ => expr_to_sql x
  | Not x => SqlAst.UnaryOp SqlAst.UNot (expr_to_sql x)
  | ScalarFunction f a => SqlAst.EFunction (call_to_sql f None (map expr_to_sql a) None)
  | AggregateFunction f a d =>
      SqlAst.EFunction (call_to_sql f (if d then Some SqlAst.Distinct else None) (map expr_to_sql a) None)
  | WindowFunction f a pb ob fr =>
      SqlAst.EFunction (call_to_sql f None (map expr_to_sql a)
        (Some (SqlAst.WindowSpecT (SqlAst.mkWindowSpec None (map expr_to_sql pb)
           (map (fun s => sort_to_sql s (expr_to_sql (sort_expr s))) ob)
           (Some (frame_to_sql fr))))))
  end.

(** The window expressions computed between a projection and the next
    projection or scan below it. *)
Fixpoint window_nodes (p : LogicalPlan) : list Expr :=
  match p with
  | Window inp ws => ws ++ window_nodes inp
  | Filter _ inp | SortNode _ inp _ => window_nodes inp
  | Projection _ _ | TableScan _ _ => []
  end.

(** [unproject_window_exprs]: a column naming a window expression is
    replaced by the expression. *)
Definition unproject_window_exprs (e : Expr) (windows : list Expr) : Expr :=
  transform_up (fun x => match x with
    | Column q n =>
        match List.find (fun w => String.eqb (schema_name w) (flat_name q n)) windows with
        | Some w => w
        | None => x
        end
    | _ => x
    end) e.

Definition select_item_to_sql (e : Expr) : SqlAst.SelectItem :=
  match e with
  | Alias x _ n => SqlAst.ExprWithAlias (expr_to_sql x) (new_ident n)
  | _ => SqlAst.UnnamedExpr (expr_to_sql e)
  end.

Record SelectBuilder := mkSelectBuilder {
  sb_projection : option (list SqlAst.SelectItem);
  sb_relation : option (SqlAst.TableFactor SqlAst.Query);
  sb_selection : option SqlAst.Expr }.

Record QueryBuilder := mkQueryBuilder {
  qb_order_by : list (SqlAst.OrderByExpr SqlAst.Expr);
  qb_limit : option SqlAst.Expr }.

Definition empty_select : SelectBuilder := mkSelectBuilder None None None.
Definition empty_query : QueryBuilder := mkQueryBuilder [] None.

Definition set_relation (sb : SelectBuilder) (r : SqlAst.TableFactor SqlAst.Query) : SelectBuilder :=
  mkSelectBuilder (sb_projection sb) (Some r) (sb_selection sb).

(** [SelectBuilder::selection]: a second filter is combined with the one
    already present. *)
Definition add_selection (sb : SelectBuilder) (e : SqlAst.Expr) : SelectBuilder :=
  mkSelectBuilder (sb_projection sb) (sb_relation sb)
    (Some match sb_selection sb with
          | Some existing => SqlAst.BinaryOp existing SqlAst.And e
          | None => e
          end).

Definition build_query (qb : QueryBuilder) (sb : SelectBuilder) : SqlAst.Query :=
  SqlAst.mkQuery
    (SqlAst.mkSelect
       (match sb_projection sb with Some l => l | None => [SqlAst.SIWildcard] end)
       (match sb_relation sb with Some r => [r] | None => [] end)
       (sb_selection sb))
    (qb_order_by qb) (qb_limit qb).

Definition project_items (es : list Expr) (inp : LogicalPlan) : list SqlAst.SelectItem :=
  map (fun e => select_item_to_sql (unproject_window_exprs e (window_nodes inp))) es.

Definition order_by_to_sql (es : list (Sort Expr)) : list (SqlAst.OrderByExpr SqlAst.Expr) :=
  map (fun s => sort_to_sql s (expr_to_sql (sort_expr s))) es.

Definition fetch_to_sql (fe : option nat) : option SqlAst.Expr :=
  option_map (fun n => scalar_to_sql (Int64 (Some (Z.of_nat n)))) fe.

Fixpoint select_to_sql (p : LogicalPlan) (qb : QueryBuilder) (sb : SelectBuilder)
  : QueryBuilder * SelectBuilder :=
  match p with
  | TableScan t _ => (qb, set_relation sb (SqlAst.Table [new_ident t]))
  | Projection es inp =>
      match sb_projection sb with
      | Some _ =>
          let '(qb', sb') := select_to_sql inp empty_query
                               (mkSelectBuilder (Some (project_items es inp)) None None) in
          (qb, set_relation sb (SqlAst.Derived (build_query qb' sb') None))
      | None =>
          select_to_sql inp qb
            (mkSelectBuilder (Some (project_items es inp)) (sb_relation sb) (sb_selection sb))
      end
  | Filter pr inp => select_to_sql inp qb (add_selection sb (expr_to_sql pr))
  | Window inp _ => select_to_sql inp qb sb
  | SortNode es inp fe =>
      match sb_projection sb with
      | Some _ =>
          let '(qb', sb') := select_to_sql inp (mkQueryBuilder (order_by_to_sql es) (fetch_to_sql fe))
                               empty_select in
          (qb, set_relation sb (SqlAst.Derived (build_query qb' sb') (Some (new_ident "derived_sort"))))
      | None => select_to_sql inp (mkQueryBuilder (order_by_to_sql es) (fetch_to_sql fe)) sb
      end
  end.

Definition plan_to_sql (p : LogicalPlan) : Result SqlAst.Statement string :=
  let '(qb, sb) := select_to_sql p empty_query empty_select in
  Ok (SqlAst.SQuery (build_query qb sb)).
End Unparser.

(** ** The schema of a projection

    DataFusion's [Projection::try_new], outside this repository, which
    [LogicalPlan::with_new_exprs] calls to rebuild a projection: the schema
    of the new projection is computed from its expressions over the schema
    of its input ([projection_schema], [exprlist_to_fields]), then checked
    ([DFSchema::check_names]).  Data types are not modelled: computing the
    field of an expression resolves the columns its type depends on
    ([resolved_refs]) against the input schema, which fails if a column is
    not found or is ambiguous. *)
Module DFSchema.
Import DataFusion.

(** A field: its relation qualifier and its name. *)
Definition Field : Type := option string * string.

Inductive SchemaError :=
| FieldNotFound (relation : option string) (name : string)
| AmbiguousReference (relation : option string) (name : string)
| DuplicateQualifiedField (relation : string) (name : string)
| DuplicateUnqualifiedField (name : string).

(** [DataFusionError::SchemaError]'s message; the list of valid fields that
    DataFusion appends to a [FieldNotFound] is omitted. *)
Definition SchemaError_to_string (e : SchemaError) : string :=
  "Schema error: " ++
  match e with
  | FieldNotFound q n => "No field named " ++ Unparser.flat_name q n
  | AmbiguousReference None n => "Ambiguous reference to unqualified field " ++ n
  | AmbiguousReference (Some q) n =>
      "Schema contains qualified field name " ++ q ++ "." ++ n ++ " and unqualified field name "
      ++ n ++ " which would be ambiguous"
  | DuplicateQualifiedField q n => "Schema contains duplicate qualified field name " ++ q ++ "." ++ n
  | DuplicateUnqualifiedField n => "Schema contains duplicate unqualified field name " ++ n
  end.

(** [Expr::qualified_name]: the qualifier and name of the field of an
    expression in a projection's schema. *)
Definition qualified_name (e : Expr) : Field :=
  match e with
  | Column q n => (q, n)
  | Alias _ q n => (q, n)
  | _ => (None, Unparser.schema_name e)
  end.

(** The schema of a plan node of the fragment. *)
Fixpoint plan_schema (p : LogicalPlan) : list Field :=
  match p with
  | TableScan t fs => map (fun f => (Some t, f)) fs
  | Projection es _ => map qualified_name es
  | Filter _ inp | SortNode _ inp _ => plan_schema inp
  | Window inp ws => plan_schema inp ++ map qualified_name ws
  end%list.

(** The columns resolved when the field of an expression is computed
    ([Expr::data_type_and_nullable]): of a window function only its
    arguments. *)
Fixpoint resolved_refs (e : Expr) : list Field :=
  match e with
  | Column q n => [(q, n)]
  | Literal _ => []
  | BinaryExpr l _ r => resolved_refs l ++ resolved_refs r
  | Alias x _ _ | Not x => resolved_refs x
  | ScalarFunction _ a | AggregateFunction _ a _ | WindowFunction _ a _ _ _ =>
      concat (map resolved_refs a)
  end%list.

Definition is_unqualified (f : Field) : bool :=
  match f.1 with None => true | Some _ => false end.

(** [DFSchema::field_from_column]: a qualified column needs the field with
    that qualifier and name; an unqualified one needs exactly one field of
    that name, or, among several, exactly one unqualified. *)
Definition field_from_column (schema : list Field) (c : Field) : Result unit SchemaError :=
  match c with
  | (Some q, n) =>
      if existsb (fun f => bool_decide (f = (Some q, n))) schema then Ok tt
      else Err (FieldNotFound (Some q) n)
  | (None, n) =>
      match List.filter (fun f => String.eqb f.2 n) schema with
      | [] => Err (FieldNotFound None n)
      | [_] => Ok tt
      | ms => if Nat.eqb (length (List.filter is_unqualified ms)) 1 then Ok tt
              else Err (AmbiguousReference None n)
      end
  end.

Fixpoint resolve_all (schema : list Field) (cs : list Field) : Result unit SchemaError :=
  match cs with
  | [] => Ok tt
  | c :: cs' => bind (field_from_column schema c) (fun _ => resolve_all schema cs')
  end.

(** The first two loops of [check_names], over the fields in order: the
    qualified and the unqualified names met so far. *)
Fixpoint collect_names (fields : list Field) (qs : list (string * string)) (us : list string)
  : Result (list (string * string) * list string) SchemaError :=
  match fields with
  | [] => Ok (qs, us)
  | (Some q, n) :: fields' =>
      if existsb (fun x => bool_decide (x = (q, n))) qs then Err (DuplicateQualifiedField q n)
      else collect_names fields' (qs ++ [(q, n)]) us
  | (None, n) :: fields' =>
      if existsb (String.eqb n) us then Err (DuplicateUnqualifiedField n)
      else collect_names fields' qs (us ++ [n])
  end%list.

(** The order of a [BTreeSet] of (qualifier, name) pairs. *)
Definition qn_leb (a b : string * string) : bool :=
  match String.compare a.1 b.1 with Lt => true | Gt => false | Eq => String.leb a.2 b.2 end.

Fixpoint qn_insert (x : string * string) (l : list (string * string)) : list (string * string) :=
  match l with
  | [] => [x]
  | y :: l' => if qn_leb x y then x :: l else y :: qn_insert x l'
  end.

Definition qn_sort (l : list (string * string)) : list (string * string) :=
  fold_right qn_insert [] l.

(** [DFSchema::check_names]. *)
Definition check_names (fields : list Field) : Result unit SchemaError :=
  bind (collect_names fields [] []) (fun '(qs, us) =>
  match List.find (fun qn => existsb (String.eqb qn.2) us) (qn_sort qs) with
  | Some (q, n) => Err (AmbiguousReference (Some q) n)
  | None => Ok tt
  end).

(** [Projection::try_new]. *)
Definition Projection_try_new (es : list Expr) (input : LogicalPlan) : Result LogicalPlan SchemaError :=
  bind (resolve_all (plan_schema input) (concat (map resolved_refs es))) (fun _ =>
  bind (check_names (map qualified_name es)) (fun _ =>
  Ok (Projection es input))).
End DFSchema.

(** ** The plan rewrite of [sql/spark.rs] *)
Module SparkPlan.
Import DataFusion.

(** The inner closure at spark.rs lines 129-135. *)
Definition strip_qualifier (ex : Expr) : Expr :=
  match ex with
  | Column _ name => Column_from_name name
  | _ => ex
  end.

(** The outer closure at spark.rs lines 122-144.  [with_new_exprs] on a
    projection rebuilds it with the given expressions over the given input
    through [Projection::try_new], which re-validates the schema. *)
Definition subquery_closure (p : LogicalPlan) : Result LogicalPlan DFSchema.SchemaError :=
  match p with
  | Projection expr input =>
      if is_projection input then DFSchema.Projection_try_new (map (transform_up strip_qualifier) expr) input
      else Ok p
  | _ => Ok p
  end.

(** spark.rs lines 121-150: the error of the walk is wrapped by [map_err]. *)
Definition rewrite_subquery_column_identifiers (plan : LogicalPlan) : Result LogicalPlan VegaFusionError :=
  match plan_transform_up subquery_closure plan with
  | Ok processed_plan => Ok processed_plan
  | Err e => Err (Unparser ("Failed to rewrite subquery column identifiers: "
                            ++ DFSchema.SchemaError_to_string e))
  end.

(** The spec's description of the scrub, written independently of the code:
    every [Column] reference of a projection that reads from a projection
    loses its qualifier; every other node is kept. *)
Fixpoint unqualify_columns (e : Expr) : Expr :=
  match e with
  | Column _ n => Column None n
  | Literal v => Literal v
  | BinaryExpr l op r => BinaryExpr (unqualify_columns l) op (unqualify_columns r)
  | Alias x q n => Alias (unqualify_columns x) q n
  | Not x => Not (unqualify_columns x)
  | ScalarFunction f a => ScalarFunction f (map unqualify_columns a)
  | AggregateFunction f a d => AggregateFunction f (map unqualify_columns a) d
  | WindowFunction f a pb ob fr =>
      WindowFunction f (map unqualify_columns a) (map unqualify_columns pb)
        (map (Sort_map unqualify_columns) ob) fr
  end.

Fixpoint scrub_spec (p : LogicalPlan) : LogicalPlan :=
  match p with
  | TableScan t fs => TableScan t fs
  | Projection es inp =>
      Projection (if is_projection inp then map unqualify_columns es else es) (scrub_spec inp)
  | Filter pr inp => Filter pr (scrub_spec inp)
  | Window inp ws => Window (scrub_spec inp) ws
  | SortNode es inp fe => SortNode es (scrub_spec inp) fe
  end.
End SparkPlan.

(** ** [logical_plan_to_spark_sql] (spark.rs, lines 17-48); the debug
    printing is omitted. *)
Module Spark.
Import DataFusion.

Definition logical_plan_to_spark_sql (plan : LogicalPlan) : Result string VegaFusionError :=
  match SparkPlan.rewrite_subquery_column_identifiers plan with
  | Err e => Err e
  | Ok processed_plan =>
      match Unparser.plan_to_sql processed_plan with
      | Err e => Err (Unparser ("Failed to generate SQL AST from logical plan: " ++ e))
      | Ok statement0 =>
          let statement1 := SparkAst.rewrite_row_number statement0 in
          let statement := SparkAst.rewrite_inf_and_nan statement1 in
          Ok (SqlDisplay.Statement_to_string statement)
      end
  end.

(** The plans of the three tests of [tests/test_spark_sql.rs]. *)
Definition test_table (fields : list string) : LogicalPlan := TableScan "test_table" fields.
Definition qcol (n : string) : Expr := Column (Some "test_table") n.

(** [with_index]: [row_number()] over the whole frame, aliased [_vf_order],
    in front of the input columns. *)
Definition row_number_expr : Expr :=
  WindowFunction "row_number" [] [] [] default_window_frame.

Definition with_index (fields : list string) (input : LogicalPlan) : LogicalPlan :=
  Projection (Alias (col (Unparser.schema_name row_number_expr)) None "_vf_order" :: map qcol fields)
    (Window input [row_number_expr]).

Definition s1_plan : LogicalPlan :=
  with_index ["id"; "name"; "value"]
    (Filter (BinaryExpr (qcol "value") OpGt (Literal (Float64 (Some "0.0"))))
       (test_table ["id"; "name"; "value"])).

Definition s2_plan : LogicalPlan :=
  Filter (BinaryExpr (qcol "value") OpGt (Literal (Float64 (Some "-inf"))))
    (Filter (BinaryExpr (qcol "value") OpLt (Literal (Float64 (Some "inf"))))
       (Filter (BinaryExpr (qcol "value") OpGt (Literal (Float64 (Some "NaN"))))
          (test_table ["id"; "value"]))).

Definition s3_plan : LogicalPlan :=
  Projection [qcol "customer_name"; qcol "customer_age"]
    (Projection [qcol "customer_name"; qcol "customer_age"]
       (test_table ["customer_name"; "customer_age"])).

(** A projection of [t.a] over a projection whose fields are [t.a] and
    [t.b] aliased to [s.a]: once stripped, the outer [a] matches two
    qualified fields. *)
Definition ambiguous_plan : LogicalPlan :=
  Projection [Column (Some "t") "a"]
    (Projection [Column (Some "t") "a"; Alias (Column (Some "t") "b") (Some "s") "a"]
       (TableScan "t" ["a"; "b"])).
End Spark.

(** ** Task values, variables and data frames ([vegafusion_core])

    Modelled from the spec: [TaskValue], [TaskPlan], [Variable] and
    DataFusion's [DataFrame] are declared outside this repository.  A table
    is represented by its column names and its row count; a data frame by
    its logical plan and the column names of its schema. *)
Record VegaFusionTable := mkVegaFusionTable { table_schema : list string; num_rows : nat }.

Record DataFrame := mkDataFrame { logical_plan : DataFusion.LogicalPlan; df_schema : list string }.

(** The number of fields of a schema named [n].  A schema may hold a
    name more than once, under different relation qualifiers (for instance
    after a join); the model keeps the names only. *)
Definition name_matches (schema : list string) (n : string) : nat :=
  length (List.filter (String.eqb n) schema).

(** The unqualified column names referenced by sort expressions. *)
Definition sort_unqualified_refs (exprs : list (DataFusion.Sort DataFusion.Expr)) : list string :=
  omap (fun qn : option string * string => match qn.1 with None => Some qn.2 | Some _ => None end)
    (concat (map (fun s => DataFusion.column_refs (DataFusion.sort_expr s)) exprs)).

(** [DataFrame::sort] ([LogicalPlanBuilder::sort_with_limit]): every
    unqualified column of the sort expressions is resolved against the
    frame's schema.  A name no field carries is reported as not found (what
    DataFusion reports when no projection below the frame supplies it); a
    name several fields carry is an ambiguous reference.  Otherwise the
    result is a sort node over the frame's plan, with the schema unchanged.
    A qualified column is taken to resolve: the model's schema has no
    qualifiers.  DataFusion's errors are carried as [External]. *)
Definition DataFrame_sort (df : DataFrame) (exprs : list (DataFusion.Sort DataFusion.Expr))
  : Result DataFrame VegaFusionError :=
  let refs := sort_unqualified_refs exprs in
  match List.find (fun n => Nat.eqb (name_matches (df_schema df) n) 0) refs with
  | Some n => Err (External ("Schema error: No field named " ++ n))
  | None =>
      match List.find (fun n => Nat.ltb 1 (name_matches (df_schema df) n)) refs with
      | Some n => Err (External ("Schema error: Ambiguous reference to unqualified field " ++ n))
      | None => Ok (mkDataFrame (DataFusion.SortNode exprs (logical_plan df) None) (df_schema df))
      end
  end.

Module TaskValue.
Inductive t :=
| Scalar (v : DataFusion.ScalarValue)
| Table (tbl : VegaFusionTable)
| DataFrame (d : DataFrame).
End TaskValue.

Module TaskPlan.
Inductive t :=
| Scalar (v : DataFusion.ScalarValue)
| Plan (p : DataFusion.LogicalPlan).
End TaskPlan.

Inductive VariableNamespace := Signal | Data | Scale.

(** [Variable] (a keyword of Rocq, hence the name [Var]). *)
Record Var := mkVar { var_namespace : VariableNamespace; var_name : string }.

(** Modelled from the spec: variables are ordered lexicographically by
    (namespace, name), the namespaces in the order Signal, Data, Scale. *)
Definition namespace_index (ns : VariableNamespace) : nat :=
  match ns with Signal => 0 | Data => 1 | Scale => 2 end.

Definition Variable_le (a b : Var) : Prop :=
  (namespace_index (var_namespace a) < namespace_index (var_namespace b))%nat
  \/ (var_namespace a = var_namespace b /\ String.le (var_name a) (var_name b)).

#[global] Instance VariableNamespace_eq_dec : EqDecision VariableNamespace.
Proof. solve_decision. Defined.
#[global] Instance Variable_eq_dec : EqDecision Var.
Proof. solve_decision. Defined.
#[global] Instance Variable_le_dec : RelDecision Variable_le.
Proof. intros a b. unfold Variable_le. apply _. Defined.

(** ** [TaskCall] for [SignalTask] and [Task] ([signal/mod.rs],
    [task_graph/task.rs])

    The compiler of Vega expressions, the protobuf decoders and the data
    tasks are outside the fragment: they are the operations of the class
    below.  The session context and the inline datasets, which these two
    implementations do not read for signal and value tasks, are omitted. *)
Module Tasks.

Class TaskRuntime := {
  Expression : Type;
  CompiledExpr : Type;
  CompilationConfig : Type;
  RuntimeTzConfig : Type;
  build_compilation_config : list Var -> list TaskValue.t -> option RuntimeTzConfig ->
                             CompilationConfig;
  compile : Expression -> CompilationConfig -> Result CompiledExpr VegaFusionError;
  eval_to_scalar : CompiledExpr -> Result DataFusion.ScalarValue VegaFusionError;
  (** [TryFrom<&ProtoScalarValue> for ScalarValue] and
      [VegaFusionTable::from_ipc_bytes] *)
  scalar_from_proto : list Byte.byte -> Result DataFusion.ScalarValue VegaFusionError;
  table_from_ipc_bytes : list Byte.byte -> Result VegaFusionTable VegaFusionError;
  (** the data tasks, whose [TaskCall] implementations are not in the fragment *)
  DataTask : Type;
  data_task_eval : DataTask -> list TaskValue.t -> option RuntimeTzConfig ->
                   Result (TaskValue.t * list TaskValue.t) VegaFusionError;
  data_task_plan : DataTask -> list TaskValue.t -> option RuntimeTzConfig ->
                   Result (TaskPlan.t * list TaskValue.t) VegaFusionError }.

Section WithRuntime.
Context `{TaskRuntime}.

Record SignalTask := mkSignalTask { signal_input_vars : list Var; expr : option Expression }.

Definition eval_signal_to_scalar_value (signal_task : SignalTask) (values : list TaskValue.t)
    (tz_config : option RuntimeTzConfig) : Result DataFusion.ScalarValue VegaFusionError :=
  let config := build_compilation_config (signal_input_vars signal_task) values tz_config in
  bind (unwrap (expr signal_task)) (fun expression =>
  bind (compile expression config) (fun ex =>
  eval_to_scalar ex)).

Definition SignalTask_eval (self : SignalTask) (values : list TaskValue.t)
    (tz_config : option RuntimeTzConfig) : Result (TaskValue.t * list TaskValue.t) VegaFusionError :=
  bind (eval_signal_to_scalar_value self values tz_config) (fun value =>
  let task_value := TaskValue.Scalar value in
  Ok (task_value, [])).

Definition SignalTask_plan (self : SignalTask) (values : list TaskValue.t)
    (tz_config : option RuntimeTzConfig) : Result (TaskPlan.t * list TaskValue.t) VegaFusionError :=
  bind (eval_signal_to_scalar_value self values tz_config) (fun value =>
  let task_plan := TaskPlan.Scalar value in
  Ok (task_plan, [])).

(** The protobuf [TaskValue] stored in a value task. *)
Inductive ProtoTaskValue :=
| ProtoScalar (bytes : list Byte.byte)
| ProtoTable (ipc : list Byte.byte).

(** [TryFrom<&ProtoTaskValue> for TaskValue]. *)
Definition TaskValue_try_from (v : ProtoTaskValue) : Result TaskValue.t VegaFusionError :=
  match v with
  | ProtoScalar b => bind (scalar_from_proto b) (fun s => Ok (TaskValue.Scalar s))
  | ProtoTable b => bind (table_from_ipc_bytes b) (fun t => Ok (TaskValue.Table t))
  end.

Inductive TaskKind :=
| Value (value : ProtoTaskValue)
| DataUrl (task : DataTask)
| DataValues (task : DataTask)
| DataSource (task : DataTask)
| SignalK (task : SignalTask).

Definition Task_eval (kind : TaskKind) (values : list TaskValue.t)
    (tz_config : option RuntimeTzConfig) : Result (TaskValue.t * list TaskValue.t) VegaFusionError :=
  match kind with
  | Value value => bind (TaskValue_try_from value) (fun v => Ok (v, []))
  | DataUrl task | DataValues task | DataSource task => data_task_eval task values tz_config
  | SignalK task => SignalTask_eval task values tz_config
  end.

(** The match of [Task::plan] lists [Scalar] and [Table]; a value decoded
    from the protobuf is never a [DataFrame], and that arm is unreachable. *)
Definition Task_plan (kind : TaskKind) (values : list TaskValue.t)
    (tz_config : option RuntimeTzConfig) : Result (TaskPlan.t * list TaskValue.t) VegaFusionError :=
  match kind with
  | Value value =>
      bind (TaskValue_try_from value) (fun task_value =>
      match task_value with
      | TaskValue.Scalar scalar => Ok (TaskPlan.Scalar scalar, [])
      | TaskValue.Table _ => Err (Internal "Cannot convert Table TaskValue to TaskPlan")
      | TaskValue.DataFrame _ => Err (Panic "unreachable")
      end)
  | DataUrl task | DataValues task | DataSource task => data_task_plan task values tz_config
  | SignalK task => SignalTask_plan task values tz_config
  end.
End WithRuntime.
End Tasks.

(** ** Evaluation of a transform pipeline ([transform/pipeline.rs])

    The transforms are the operations of the class below; DataFusion's
    [SessionContext::vegafusion_table] and [DataFrame::collect_to_table]
    too.  Rust leaves the iteration order of a [HashMap] unspecified: the
    order in which [result_outputs] is traversed is the argument
    [iter_order] of [build_dataframe]. *)
Module Pipeline.

Definition ORDER_COL : string := "_vf_order".

(** The two scopes of [CompilationConfig] that the pipeline updates; the
    other fields are carried along unchanged and are not modelled. *)
Record CompilationConfig := mkCompilationConfig {
  signal_scope : list (string * DataFusion.ScalarValue);
  data_scope : list (string * DataFrame) }.

Class PipelineRuntime := {
  Transform : Type;
  tx_eval : Transform -> DataFrame -> CompilationConfig ->
            Result (DataFrame * list TaskValue.t) VegaFusionError;
  output_vars : Transform -> list Var;
  (** the [Debug] text of a transform *)
  tx_debug : Transform -> string;
  vegafusion_table : VegaFusionTable -> Result DataFrame VegaFusionError;
  collect_to_table : DataFrame -> Result VegaFusionTable VegaFusionError }.

Record TransformPipeline {T : Type} := mkTransformPipeline { transforms : list T }.
Arguments TransformPipeline : clear implicits.
Arguments mkTransformPipeline {T} transforms.
Arguments transforms {T} _.

(** [HashMap::insert]: the entry of the key is replaced. *)
Definition map_insert {K V} `{EqDecision K} (k : K) (v : V) (m : list (K * V)) : list (K * V) :=
  (k, v) :: filter (fun kv => kv.1 <> k) m.

(** [column_with_name(ORDER_COL).is_some()] on the frame's schema. *)
Definition has_order_col (df : DataFrame) : bool := existsb (String.eqb ORDER_COL) (df_schema df).

(** [TaskValue::as_scalar]. *)
Definition as_scalar (v : TaskValue.t) : Result DataFusion.ScalarValue VegaFusionError :=
  match v with
  | TaskValue.Scalar s => Ok s
  | _ => Err (Internal "Value is not a scalar")
  end.

Definition entry_le (a b : Var * TaskValue.t) : Prop := Variable_le a.1 b.1.
#[global] Instance entry_le_dec : RelDecision entry_le.
Proof. intros a b. unfold entry_le. apply _. Defined.

(** [sorted_by_key(|(k, _v)| k.clone())]: a stable sort of the traversed
    entries on their keys. *)
Definition sort_outputs (iter_order : list (Var * TaskValue.t) -> list (Var * TaskValue.t))
    (result_outputs : list (Var * TaskValue.t)) : list (Var * TaskValue.t) :=
  merge_sort entry_le (iter_order result_outputs).

Section WithRuntime.
Context `{PipelineRuntime}.

(** The inner loop over [tx.output_vars().iter().zip(tx_result.1)];
    [unimplemented!()] panics. *)
Fixpoint collect_outputs (vars : list Var) (vals : list TaskValue.t)
    (result_outputs : list (Var * TaskValue.t)) (config : CompilationConfig)
  : Result (list (Var * TaskValue.t) * CompilationConfig) VegaFusionError :=
  match vars, vals with
  | var :: vars', val :: vals' =>
      let result_outputs' := map_insert var val result_outputs in
      bind (match var_namespace var with
            | Signal =>
                bind (as_scalar val) (fun s =>
                Ok (mkCompilationConfig (map_insert (var_name var) s (signal_scope config))
                      (data_scope config)))
            | Data =>
                match val with
                | TaskValue.DataFrame df =>
                    Ok (mkCompilationConfig (signal_scope config)
                          (map_insert (var_name var) df (data_scope config)))
                | TaskValue.Table table =>
                    bind (vegafusion_table table) (fun df =>
                    Ok (mkCompilationConfig (signal_scope config)
                          (map_insert (var_name var) df (data_scope config))))
                | _ => Err (Panic "not implemented")
                end
            | Scale => Err (Panic "not implemented")
            end) (fun config' => collect_outputs vars' vals' result_outputs' config')
  | _, _ => Ok (result_outputs, config)
  end.

(** The loop over [pipeline.transforms]. *)
Fixpoint run_transforms (txs : list Transform) (result_sql_df : DataFrame)
    (result_outputs : list (Var * TaskValue.t)) (config : CompilationConfig)
  : Result (DataFrame * list (Var * TaskValue.t) * CompilationConfig) VegaFusionError :=
  match txs with
  | [] => Ok (result_sql_df, result_outputs, config)
  | tx :: rest =>
      bind (tx_eval tx result_sql_df config) (fun tx_result =>
      let result_sql_df' := tx_result.1 in
      if negb (has_order_col result_sql_df') then
        Err (Internal ("DataFrame output of transform does not have the expected " ++ ORDER_COL
                       ++ " ordering column: " ++ tx_debug tx))
      else
        bind (collect_outputs (output_vars tx) tx_result.2 result_outputs config) (fun oc =>
        run_transforms rest result_sql_df' oc.1 oc.2))
  end.

Definition order_sort : list (DataFusion.Sort DataFusion.Expr) :=
  [DataFusion.mkSort (DataFusion.col ORDER_COL) true false].

Definition build_dataframe (iter_order : list (Var * TaskValue.t) -> list (Var * TaskValue.t))
    (pipeline : TransformPipeline Transform) (sql_df : DataFrame) (config : CompilationConfig)
  : Result (DataFrame * list TaskValue.t) VegaFusionError :=
  if negb (has_order_col sql_df) then
    Err (Internal ("DataFrame input to eval_sql does not have the expected " ++ ORDER_COL
                   ++ " ordering column"))
  else
    bind (run_transforms (transforms pipeline) sql_df [] config) (fun r =>
    let '(result_sql_df, result_outputs, _) := r in
    bind (DataFrame_sort result_sql_df order_sort) (fun sorted_df =>
    let signals_values := map snd (sort_outputs iter_order result_outputs) in
    Ok (sorted_df, signals_values))).

Definition eval_sql iter_order (pipeline : TransformPipeline Transform) (dataframe : DataFrame)
    (config : CompilationConfig) : Result (VegaFusionTable * list TaskValue.t) VegaFusionError :=
  bind (build_dataframe iter_order pipeline dataframe config) (fun r =>
  bind (collect_to_table r.1) (fun table => Ok (table, r.2))).

Definition eval_to_df iter_order (pipeline : TransformPipeline Transform) (dataframe : DataFrame)
    (config : CompilationConfig) : Result (DataFrame * list TaskValue.t) VegaFusionError :=
  bind (build_dataframe iter_order pipeline dataframe config) (fun r => Ok r).
End WithRuntime.
End Pipeline.

(** ** [PureAggRewriter] ([data/util.rs]) *)
Module PureAgg.
Import DataFusion.

(** [usize::MAX] on a 64-bit target. *)
Definition usize_MAX : N := (2 ^ 64 - 1)%N.

(** [n += 1] on a [usize]: past [usize::MAX] the sum wraps to 0, as in a
    release build (a debug build panics at that point instead). *)
Definition usize_incr (n : N) : N := ((n + 1) mod 2 ^ 64)%N.

(** [next_id] is a [usize]; both fields are [pub]. *)
Record PureAggRewriter := mkPureAggRewriter { pure_aggs : list Expr; next_id : N }.

Definition new : PureAggRewriter := mkPureAggRewriter [] 0.

(** [format!("_agg_{}", self.next_id)] *)
Definition agg_name (i : N) : string := "_agg_" ++ pretty i.

(** [new_agg_name]: the name for [next_id], then [self.next_id += 1]. *)
Definition new_agg_name (self : PureAggRewriter) : string * PureAggRewriter :=
  let name := agg_name (next_id self) in
  (name, mkPureAggRewriter (pure_aggs self) (usize_incr (next_id self))).

(** [f_down]; the [transformed] flag of the result is not modelled. *)
Definition f_down (self : PureAggRewriter) (node : Expr) : Expr * PureAggRewriter :=
  match node with
  | AggregateFunction _ _ _ =>
      let '(name, self1) := new_agg_name self in
      (col name, mkPureAggRewriter (pure_aggs self1 ++ [Expr_alias node name]) (next_id self1))
  | _ => (node, self)
  end.

(** Modelled from the spec: DataFusion's [TreeNode::rewrite] with a
    rewriter whose [f_down] answers [Continue] and whose [f_up] keeps the
    node: [f_down] on the node, then the children of its result, left to
    right, threading the rewriter.  The recursion follows the result of
    [f_down], which is not a subterm of the input: it runs on a fuel that
    [rewrite] sets to the size of the input. *)
Fixpoint map_list_st {S} (g : S -> Expr -> Expr * S) (s : S) (l : list Expr) : list Expr * S :=
  match l with
  | [] => ([], s)
  | x :: l' => let '(x', s1) := g s x in let '(l'', s2) := map_list_st g s1 l' in (x' :: l'', s2)
  end.

Definition map_sorts_st {S} (g : S -> Expr -> Expr * S) (s : S) (l : list (Sort Expr))
  : list (Sort Expr) * S :=
  let '(es, s1) := map_list_st g s (map sort_expr l) in
  (zip_with (fun e so => mkSort e (sort_asc so) (sort_nulls_first so)) es l, s1).

Definition map_children_st {S} (g : S -> Expr -> Expr * S) (s : S) (e : Expr) : Expr * S :=
  match e with
  | Column _ _ | Literal _ => (e, s)
  | BinaryExpr l op r =>
      let '(l', s1) := g s l in let '(r', s2) := g s1 r in (BinaryExpr l' op r', s2)
  | Alias x q n => let '(x', s1) := g s x in (Alias x' q n, s1)
  | Not x => let '(x', s1) := g s x in (Not x', s1)
  | ScalarFunction f a => let '(a', s1) := map_list_st g s a in (ScalarFunction f a', s1)
  | AggregateFunction f a d => let '(a', s1) := map_list_st g s a in (AggregateFunction f a' d, s1)
  | WindowFunction f a pb ob fr =>
      let '(a', s1) := map_list_st g s a in
      let '(pb', s2) := map_list_st g s1 pb in
      let '(ob', s3) := map_sorts_st g s2 ob in
      (WindowFunction f a' pb' ob' fr, s3)
  end.

Fixpoint expr_size (e : Expr) : nat :=
  match e with
  | Column _ _ | Literal _ => 1
  | BinaryExpr l _ r => S (expr_size l + expr_size r)
  | Alias x _ _ | Not x => S (expr_size x)
  | ScalarFunction _ a | AggregateFunction _ a _ => S (list_sum (map expr_size a))
  | WindowFunction _ a pb ob _ =>
      S (list_sum (map expr_size a) + list_sum (map expr_size pb)
         + list_sum (map (fun s => expr_size (sort_expr s)) ob))
  end.

Fixpoint rewrite_fuel (fuel : nat) (self : PureAggRewriter) (e : Expr) : Expr * PureAggRewriter :=
  match fuel with
  | O => (e, self)
  | S fuel' => let '(e1, self1) := f_down self e in map_children_st (rewrite_fuel fuel') self1 e1
  end.

Definition rewrite (e : Expr) (self : PureAggRewriter) : Expr * PureAggRewriter :=
  rewrite_fuel (expr_size e) self e.

(** The aggregate nodes that a pre-order walk reaches without entering an
    aggregate: the nodes that the rewrite replaces, in the order it visits
    them. *)
Fixpoint outer_aggs (e : Expr) : list Expr :=
  match e with
  | Column _ _ | Literal _ => []
  | BinaryExpr l _ r => outer_aggs l ++ outer_aggs r
  | Alias x _ _ | Not x => outer_aggs x
  | ScalarFunction _ a => concat (map outer_aggs a)
  | AggregateFunction _ _ _ => [e]
  | WindowFunction _ a pb ob _ =>
      concat (map outer_aggs a) ++ concat (map outer_aggs pb)
      ++ concat (map (fun s => outer_aggs (sort_expr s)) ob)
  end.

(** The entries [agg AS _agg_k], [_agg_(k+1)], ... for a list of
    aggregates, numbered with unbounded integers. *)
Fixpoint aliased_from (k : N) (aggs : list Expr) : list Expr :=
  match aggs with
  | [] => []
  | a :: aggs' => Expr_alias a (agg_name k) :: aliased_from (N.succ k) aggs'
  end.

Definition alias_name (e : Expr) : option string :=
  match e with Alias _ _ n => Some n | _ => None end.
End PureAgg.

(** * Proofs *)

Lemma LAll_map_ext {A B} (g h : A -> B) (l : list A) :
  LAll (fun x => g x = h x) l -> map g l = map h l.
Proof. induction l as [|x l IH]; simpl; [done|]. intros [-> ?]. f_equal. auto. Qed.

Module SparkPlanFacts.
Import DataFusion SparkPlan.

Lemma transform_up_strip_qualifier e : transform_up strip_qualifier e = unqualify_columns e.
Proof.
  induction e using Expr_ind'; simpl; try reflexivity.
  - rewrite IHe1, IHe2. reflexivity.
  - rewrite IHe. reflexivity.
  - rewrite IHe. reflexivity.
  - rewrite (LAll_map_ext _ _ _ H). reflexivity.
  - rewrite (LAll_map_ext _ _ _ H). reflexivity.
  - rewrite (LAll_map_ext _ _ _ H), (LAll_map_ext _ _ _ H0).
    f_equal. apply LAll_map_ext. eapply LAll_impl; [|exact H1].
    intros [x sa nf] Hx; unfold Sort_map; simpl in *. rewrite Hx. reflexivity.
Qed.

Lemma unqualify_columns_idem e : unqualify_columns (unqualify_columns e) = unqualify_columns e.
Proof.
  induction e using Expr_ind'; simpl; try reflexivity.
  - rewrite IHe1, IHe2. reflexivity.
  - rewrite IHe. reflexivity.
  - rewrite IHe. reflexivity.
  - rewrite map_map, (LAll_map_ext _ _ _ H). reflexivity.
  - rewrite map_map, (LAll_map_ext _ _ _ H). reflexivity.
  - rewrite !map_map, (LAll_map_ext _ _ _ H), (LAll_map_ext _ _ _ H0).
    f_equal. apply LAll_map_ext. eapply LAll_impl; [|exact H1].
    intros [x sa nf] Hx; unfold Sort_map; simpl in *. rewrite Hx. reflexivity.
Qed.

Lemma is_projection_scrub_spec p : is_projection (scrub_spec p) = is_projection p.
Proof. destruct p; reflexivity. Qed.

Lemma Projection_try_new_ok es inp p :
  DFSchema.Projection_try_new es inp = Ok p -> p = Projection es inp.
Proof.
  unfold DFSchema.Projection_try_new.
  destruct (DFSchema.resolve_all _ _); simpl; [|discriminate].
  destruct (DFSchema.check_names _); simpl; [|discriminate]. congruence.
Qed.

Lemma map_transform_up_strip_qualifier es :
  map (transform_up strip_qualifier) es = map unqualify_columns es.
Proof. apply map_ext. apply transform_up_strip_qualifier. Qed.

(** A successful walk returns the scrubbed plan. *)
Lemma plan_transform_up_scrub p q :
  plan_transform_up subquery_closure p = Ok q -> q = scrub_spec p.
Proof.
  revert q. induction p as [t fs|es p IH|pr p IH|p IH ws|es p IH fe]; intros q; simpl;
    [congruence| | | |];
    (destruct (plan_transform_up subquery_closure p) as [p'|e] eqn:E; simpl; [|discriminate]);
    pose proof (IH p' eq_refl) as ->; [|congruence..].
  cbn [subquery_closure]. rewrite is_projection_scrub_spec. destruct (is_projection p); [|congruence].
  intros Hq. apply Projection_try_new_ok in Hq. subst q.
  rewrite map_transform_up_strip_qualifier. reflexivity.
Qed.


Lemma scrub_spec_idem p : scrub_spec (scrub_spec p) = scrub_spec p.
Proof.
  induction p; simpl; rewrite ?IHp; try reflexivity.
  rewrite is_projection_scrub_spec. destruct (is_projection p); [|reflexivity].
  rewrite map_map. f_equal. apply map_ext. apply unqualify_columns_idem.
Qed.
End SparkPlanFacts.

Module SparkAstFacts.
Import SqlAst SqlDisplay SparkAst.

Definition is_row_number (fn : Function Expr) : bool :=
  String.eqb (to_lowercase (ObjectName_to_string (name fn))) "row_number".

(** A [row_number] call with a window specification has no frame and the
    single ORDER BY element [monotonically_increasing_id()]. *)
Definition row_number_rewritten (e : Expr) : Prop :=
  match e with
  | EFunction fn =>
      if is_row_number fn then
        match over fn with
        | Some (WindowSpecT ws) =>
            window_frame ws = None /\ order_by ws = [monotonically_increasing_id_order]
        | _ => True
        end
      else True
  | _ => True
  end.

Definition is_special_number (e : Expr) : bool :=
  match e with
  | EValue v =>
      match vws_value v with
      | Number s _ => existsb (String.eqb (to_lowercase s)) SPECIAL_VALUES
      | _ => false
      end
  | _ => false
  end.

Definition no_special_number (e : Expr) : Prop := is_special_number e = false.

Lemma AllE_intro (P : Expr -> Prop) e : P e -> Expr_children_all (AllE P) e -> AllE P e.
Proof. destruct e; split; assumption. Qed.

Lemma is_row_number_with_over fn o : is_row_number (with_over fn o) = is_row_number fn.
Proof. destruct fn; reflexivity. Qed.

Lemma over_with_over {E} (fn : Function E) o : over (with_over fn o) = o.
Proof. destruct fn; reflexivity. Qed.

Lemma row_number_closure_rewritten e :
  Expr_children_all (AllE row_number_rewritten) e -> AllE row_number_rewritten (row_number_closure e).
Proof.
  intros Hc. destruct e as [| | | | | |fn]; try (split; [exact I|exact Hc]).
  unfold row_number_closure. fold (is_row_number fn).
  destruct (is_row_number fn) eqn:Hn; [|split; [cbn; rewrite Hn; exact I|exact Hc]].
  destruct (over fn) as [[ws|i]|] eqn:Ho;
    [|split; [cbn; rewrite Hn, Ho; exact I|exact Hc]..].
  cbn [AllE Expr_children_all]. split.
  - unfold row_number_rewritten. rewrite is_row_number_with_over, Hn, over_with_over. auto.
  - destruct fn as [nm odbc ps as_ fl nt ov wg]; simpl in *; subst ov.
    unfold Function_all in *; simpl in *.
    destruct Hc as (H1 & H2 & H3 & H4 & H5). simpl in H4.
    destruct H4 as (Hp & _ & _). repeat split; auto.
Qed.

Lemma float_call_all (P : Expr -> Prop) s span :
  P (EValue (mkValueWithSpan (SingleQuotedString s) span)) ->
  Function_all (AllE P) (float_call s span).
Proof. intros HP. unfold Function_all, float_call; simpl. repeat split; auto. Qed.

Lemma inf_and_nan_closure_cases e :
  inf_and_nan_closure e = e
  \/ exists s long span, e = EValue (mkValueWithSpan (Number s long) span)
       /\ existsb (String.eqb (to_lowercase s)) SPECIAL_VALUES = true
       /\ inf_and_nan_closure e = EFunction (float_call s span).
Proof.
  destruct e as [| |[v span]| | | |]; try (left; reflexivity).
  unfold inf_and_nan_closure; cbn [vws_value vws_span].
  destruct v as [s long| | |]; try (left; reflexivity).
  destruct (existsb (String.eqb (to_lowercase s)) SPECIAL_VALUES) eqn:Hs;
    [right; eauto 7|left; reflexivity].
Qed.

Lemma inf_and_nan_closure_no_special e :
  Expr_children_all (AllE no_special_number) e -> AllE no_special_number (inf_and_nan_closure e).
Proof.
  intros Hc. destruct (inf_and_nan_closure_cases e) as [He|(s & long & span & -> & Hs & He)].
  - rewrite He. apply AllE_intro; [|exact Hc].
    destruct e as [| |[v span]| | | |]; try reflexivity.
    unfold inf_and_nan_closure in He; cbn [vws_value vws_span] in He.
    destruct v as [s0 l0| | |]; try reflexivity. unfold no_special_number, is_special_number.
    cbn [vws_value vws_span] in *.
    destruct (existsb (String.eqb (to_lowercase s0)) SPECIAL_VALUES); [discriminate|reflexivity].
  - rewrite He. split; [reflexivity|]. apply float_call_all. reflexivity.
Qed.

Lemma visit_inf_and_nan_rewritten e :
  AllE row_number_rewritten e -> AllE row_number_rewritten (visit_expr inf_and_nan_closure e).
Proof.
  induction e using Expr_ind'; cbn [visit_expr Expr_map_children]; intros [Hp Hc].
  - split; exact I.
  - split; exact I.
  - destruct (inf_and_nan_closure_cases (EValue v)) as [He|(s & long & span & Hv & Hs & He)];
      rewrite He; [split; exact I|].
    split; [reflexivity|]. apply float_call_all. split; exact I.
  - cbn in Hc. destruct Hc. split; [exact I|]. cbn. auto.
  - split; [exact I|]. cbn. auto.
  - split; [exact I|]. cbn. auto.
  - cbn [inf_and_nan_closure]. split.
    + cbn in Hp |- *. destruct fn as [nm odbc ps as_ fl nt ov wg]; simpl in *.
      unfold is_row_number in *; simpl in *.
      destruct (String.eqb _ _); [|exact I].
      destruct ov as [[ws|i]|]; simpl; auto.
      destruct Hp as [Hf Ho]. destruct ws as [wn pb ob wf]; simpl in *. subst. auto.
    + apply Function_map_all. eapply Function_all_and; [|exact H|exact Hc]. auto.
Qed.


Lemma no_special_number_fixed e : no_special_number e -> inf_and_nan_closure e = e.
Proof.
  unfold no_special_number. destruct e as [| |[v span]| | | |]; try reflexivity.
  destruct v; try reflexivity. cbn. intros ->. reflexivity.
Qed.

Lemma rewrite_row_number_rewritten st :
  Statement_all (AllE row_number_rewritten) (rewrite_row_number st).
Proof.
  destruct st as [q]. cbn. apply (visit_query_all _ (fun _ => True)).
  - intros e _. apply visit_expr_AllE. apply row_number_closure_rewritten.
  - apply Query_all_gen. auto.
Qed.

Lemma rewrite_inf_and_nan_no_special st :
  Statement_all (AllE no_special_number) (rewrite_inf_and_nan st).
Proof.
  destruct st as [q]. cbn. apply (visit_query_all _ (fun _ => True)).
  - intros e _. apply visit_expr_AllE. apply inf_and_nan_closure_no_special.
  - apply Query_all_gen. auto.
Qed.

Lemma rewrite_inf_and_nan_keeps_rewritten st :
  Statement_all (AllE row_number_rewritten) st ->
  Statement_all (AllE row_number_rewritten) (rewrite_inf_and_nan st).
Proof.
  destruct st as [q]. cbn. apply visit_query_all. apply visit_inf_and_nan_rewritten.
Qed.


End SparkAstFacts.

Module SparkClaims.
Import SqlAst SparkAst SparkAstFacts.

(** C1: the plan rewrite of [logical_plan_to_spark_sql] strips the relation
    qualifier of every column reference in a projection whose input is a
    projection, and keeps the expressions of every other projection: a
    successful rewrite returns the spec's [scrub_spec] of the plan.  Each
    rebuilt projection is re-validated by DataFusion; a failure (for
    instance a stripped column that is ambiguous in the input's schema) is
    returned as the unparser error [Failed to rewrite subquery column
    identifiers: ...].  On the plan of scenario S3 the rewrite succeeds and
    the emitted SQL is exactly [SELECT customer_name, customer_age FROM
    (SELECT test_table.customer_name, test_table.customer_age FROM
    test_table)]. *)
Theorem rewrite_subquery_column_identifiers_spec :
  (forall plan processed, SparkPlan.rewrite_subquery_column_identifiers plan = Ok processed ->
     processed = SparkPlan.scrub_spec plan)
  /\ (forall plan e, SparkPlan.rewrite_subquery_column_identifiers plan = Err e ->
       exists msg, e = Unparser ("Failed to rewrite subquery column identifiers: " ++ msg))
  /\ SparkPlan.rewrite_subquery_column_identifiers Spark.ambiguous_plan
     = Err (Unparser "Failed to rewrite subquery column identifiers: Schema error: Ambiguous reference to unqualified field a")
  /\ SparkPlan.rewrite_subquery_column_identifiers Spark.s3_plan = Ok (SparkPlan.scrub_spec Spark.s3_plan)
  /\ Spark.logical_plan_to_spark_sql Spark.s3_plan
     = Ok "SELECT customer_name, customer_age FROM (SELECT test_table.customer_name, test_table.customer_age FROM test_table)".
Proof.
  split; [|split; [|split; [|split]]].
  - intros plan processed. unfold SparkPlan.rewrite_subquery_column_identifiers.
    destruct (DataFusion.plan_transform_up _ _) as [q|e] eqn:E; [|discriminate].
    intros H; injection H as <-. exact (SparkPlanFacts.plan_transform_up_scrub _ _ E).
  - intros plan e. unfold SparkPlan.rewrite_subquery_column_identifiers.
    destruct (DataFusion.plan_transform_up _ _) as [q|e']; [discriminate|].
    intros H; injection H as <-. eexists. reflexivity.
  - vm_compute. reflexivity.
  - vm_compute. reflexivity.
  - vm_compute. reflexivity.
Qed.

(** C2: a [row_number] call (any case) with a window specification is
    rewritten to the same call with its window frame cleared and its ORDER BY
    replaced by the single element [monotonically_increasing_id()], without
    ASC or NULLS clause; in every statement that leaves the two AST rewrites
    of [logical_plan_to_spark_sql], every such call is in that form; the plan
    of scenario S1 gives exactly the SQL of the test. *)
Theorem rewrite_row_number_spec :
  (forall fn ws, is_row_number fn = true -> over fn = Some (WindowSpecT ws) ->
     row_number_closure (EFunction fn)
     = EFunction (with_over fn (Some (WindowSpecT
         (mkWindowSpec (window_name ws) (partition_by ws) [monotonically_increasing_id_order] None)))))
  /\ (forall st, Statement_all (AllE row_number_rewritten) (rewrite_inf_and_nan (rewrite_row_number st)))
  /\ Spark.logical_plan_to_spark_sql Spark.s1_plan
     = Ok "SELECT row_number() OVER (ORDER BY monotonically_increasing_id()) AS _vf_order, test_table.id, test_table.name, test_table.value FROM test_table WHERE test_table.value > 0.0".
Proof.
  split; [|split].
  - intros fn ws Hn Ho. unfold row_number_closure. fold (is_row_number fn). rewrite Hn, Ho.
    reflexivity.
  - intros st. apply rewrite_inf_and_nan_keeps_rewritten. apply rewrite_row_number_rewritten.
  - vm_compute. reflexivity.
Qed.

Definition row_number_call : Function Expr :=
  mkFunction [Ident_new "ROW_NUMBER"] false FANone (FAList (mkFunctionArgumentList None []))
    None None
    (Some (WindowSpecT (mkWindowSpec None [] []
       (Some (mkWindowFrame Rows (Preceding None) (Some (Following None)))))))
    [].

Lemma rewrite_row_number_spec_witness :
  row_number_closure (EFunction row_number_call)
  = EFunction (with_over row_number_call (Some (WindowSpecT
      (mkWindowSpec None [] [monotonically_increasing_id_order] None)))).
Proof.
  apply (proj1 rewrite_row_number_spec row_number_call
           (mkWindowSpec None [] [] (Some (mkWindowFrame Rows (Preceding None) (Some (Following None))))));
    vm_compute; reflexivity.
Defined.

(** C3: a numeric literal whose lowercased text is one of [nan], [inf],
    [infinity], [+inf], [+infinity], [-inf], [-infinity] becomes the call
    [float('<text>')], the original text as a single-quoted string with the
    literal's span; every other expression node is left unchanged by the
    closure; no such literal remains in a rewritten statement; the plan of
    scenario S2 gives [... float('-inf') ... float('inf') ... float('NaN')]. *)
Theorem rewrite_inf_and_nan_spec :
  (forall s long span, existsb (String.eqb (to_lowercase s)) SPECIAL_VALUES = true ->
     inf_and_nan_closure (EValue (mkValueWithSpan (Number s long) span))
     = EFunction (mkFunction [Ident_new "float"] false FANone
         (FAList (mkFunctionArgumentList None
            [Unnamed (FAExpr (EValue (mkValueWithSpan (SingleQuotedString s) span)))]))
         None None None []))
  /\ (forall e, is_special_number e = false -> inf_and_nan_closure e = e)
  /\ (forall st, Statement_all (AllE no_special_number) (rewrite_inf_and_nan st))
  /\ Spark.logical_plan_to_spark_sql Spark.s2_plan
     = Ok "SELECT * FROM test_table WHERE test_table.value > float('-inf') AND test_table.value < float('inf') AND test_table.value > float('NaN')".
Proof.
  split; [|split; [|split]].
  - intros s long span Hs. unfold inf_and_nan_closure. cbn [vws_value vws_span]. rewrite Hs.
    reflexivity.
  - apply no_special_number_fixed.
  - apply rewrite_inf_and_nan_no_special.
  - vm_compute. reflexivity.
Qed.

Lemma rewrite_inf_and_nan_spec_witness :
  inf_and_nan_closure (EValue (mkValueWithSpan (Number "-Infinity" false) Span_empty))
  = EFunction (float_call "-Infinity" Span_empty).
Proof.
  apply (proj1 rewrite_inf_and_nan_spec "-Infinity" false Span_empty). vm_compute. reflexivity.
Defined.


End SparkClaims.

Module TaskClaims.
Import Tasks.

(** C4: for every signal task, input values and timezone configuration,
    [TaskCall::plan] and [TaskCall::eval] are built on the same result of
    [eval_signal_to_scalar_value]: plan returns [(TaskPlan::Scalar v, [])]
    exactly when eval returns [(TaskValue::Scalar v, [])], with the same
    [v], and they fail with the same errors. *)
Theorem signal_task_plan_agrees_with_eval `{TaskRuntime} (task : SignalTask)
    (values : list TaskValue.t) (tz_config : option RuntimeTzConfig) :
  (exists r : Result DataFusion.ScalarValue VegaFusionError,
     SignalTask_eval task values tz_config = bind r (fun v => Ok (TaskValue.Scalar v, []))
     /\ SignalTask_plan task values tz_config = bind r (fun v => Ok (TaskPlan.Scalar v, [])))
  /\ (forall v, SignalTask_plan task values tz_config = Ok (TaskPlan.Scalar v, [])
                <-> SignalTask_eval task values tz_config = Ok (TaskValue.Scalar v, []))
  /\ (forall e, SignalTask_plan task values tz_config = Err e
                <-> SignalTask_eval task values tz_config = Err e).
Proof.
  unfold SignalTask_eval, SignalTask_plan.
  destruct (eval_signal_to_scalar_value task values tz_config) as [s|err]; simpl.
  - split; [exists (Ok s); auto|]. split.
    + intros v; split; intros Hv; injection Hv as ->; reflexivity.
    + intros e; split; discriminate.
  - split; [exists (Err err); auto|]. split.
    + intros v; split; discriminate.
    + intros e; split; intros He; injection He as ->; reflexivity.
Qed.

(** C9: a value task whose stored value decodes to a scalar [v] is planned
    as [(TaskPlan::Scalar v, [])]; one whose stored value decodes to a
    table [t] is evaluated to [(TaskValue::Table t, [])] and its planning
    fails with the internal error [Cannot convert Table TaskValue to
    TaskPlan]; planning a value task that stores a table always fails. *)
Theorem value_task_plan_rejects_tables `{TaskRuntime} (value : ProtoTaskValue)
    (values : list TaskValue.t) (tz_config : option RuntimeTzConfig) :
  (forall v, TaskValue_try_from value = Ok (TaskValue.Scalar v) ->
     Task_plan (Value value) values tz_config = Ok (TaskPlan.Scalar v, [])
     /\ Task_eval (Value value) values tz_config = Ok (TaskValue.Scalar v, []))
  /\ (forall t, TaskValue_try_from value = Ok (TaskValue.Table t) ->
     Task_plan (Value value) values tz_config
       = Err (Internal "Cannot convert Table TaskValue to TaskPlan")
     /\ Task_eval (Value value) values tz_config = Ok (TaskValue.Table t, []))
  /\ (forall ipc, exists e, Task_plan (Value (ProtoTable ipc)) values tz_config = Err e).
Proof.
  split; [|split].
  - intros v Hv. simpl. rewrite Hv. auto.
  - intros t Ht. simpl. rewrite Ht. auto.
  - intros ipc. simpl. destruct (table_from_ipc_bytes ipc); simpl; eauto.
Qed.

(** A runtime whose decoders accept every input, for the witness. *)
#[local] Instance example_runtime : TaskRuntime := {|
  Expression := unit;
  CompiledExpr := unit;
  CompilationConfig := unit;
  RuntimeTzConfig := unit;
  build_compilation_config := fun _ _ _ => tt;
  compile := fun _ _ => Ok tt;
  eval_to_scalar := fun _ => Ok (DataFusion.Float64 (Some "1.0"));
  scalar_from_proto := fun _ => Ok (DataFusion.Int64 (Some 7%Z));
  table_from_ipc_bytes := fun _ => Ok (mkVegaFusionTable ["a"] 3);
  DataTask := unit;
  data_task_eval := fun _ _ _ => Err (Internal "no data");
  data_task_plan := fun _ _ _ => Err (Internal "no data") |}.

Lemma value_task_plan_rejects_tables_witness :
  Task_plan (Value (ProtoTable [])) [] None
    = Err (Internal "Cannot convert Table TaskValue to TaskPlan")
  /\ Task_eval (Value (ProtoTable [])) [] None = Ok (TaskValue.Table (mkVegaFusionTable ["a"] 3), []).
Proof.
  apply (proj1 (proj2 (value_task_plan_rejects_tables (ProtoTable []) [] None))). reflexivity.
Defined.
End TaskClaims.

(** A pipeline runtime whose transforms emit given outputs and keep or drop
    the frame's columns. *)
Module PipelineExample.
Import Pipeline.

Record ExampleTransform := mkExampleTransform {
  ex_outputs : list (Var * TaskValue.t); ex_keeps_columns : bool }.

#[global] Instance example_pipeline_runtime : PipelineRuntime := {|
  Transform := ExampleTransform;
  tx_eval := fun tx df _ =>
    Ok (if ex_keeps_columns tx then df else mkDataFrame (logical_plan df) [], map snd (ex_outputs tx));
  output_vars := fun tx => map fst (ex_outputs tx);
  tx_debug := fun _ => "ExampleTransform";
  vegafusion_table := fun t => Ok (mkDataFrame (DataFusion.TableScan "table" (table_schema t)) (table_schema t));
  collect_to_table := fun df => Ok (mkVegaFusionTable (df_schema df) 0) |}.

Definition input_df : DataFrame :=
  mkDataFrame (DataFusion.TableScan "movies" ["title"; ORDER_COL]) ["title"; ORDER_COL].
Definition empty_config : CompilationConfig := mkCompilationConfig [] [].
Definition one (n : Z) : TaskValue.t := TaskValue.Scalar (DataFusion.Int64 (Some n)).
Definition extent_tx : ExampleTransform :=
  mkExampleTransform [(mkVar Signal "max", one 8); (mkVar Signal "min", one 2)] true.
Definition bin_tx : ExampleTransform :=
  mkExampleTransform [(mkVar Signal "bin_step", one 1)] true.
Definition drop_tx : ExampleTransform := mkExampleTransform [] false.
End PipelineExample.

Module PipelineFacts.
Import Pipeline.

Definition emits_only_signals `{PipelineRuntime} (pipeline : TransformPipeline Transform) : bool :=
  forallb (fun tx => forallb (fun v => match var_namespace v with Signal => true | _ => false end)
                       (output_vars tx)) (transforms pipeline).

Definition sort_by_order_col (df : DataFrame) : DataFrame :=
  mkDataFrame (DataFusion.SortNode [DataFusion.mkSort (DataFusion.Column None "_vf_order") true false]
                 (logical_plan df) None) (df_schema df).

(** The final sort of [build_dataframe]: it resolves the unqualified
    [_vf_order] against the frame's schema. *)
Lemma DataFrame_sort_order_sort df :
  DataFrame_sort df order_sort
  = if (name_matches (df_schema df) "_vf_order" =? 0)%nat
    then Err (External "Schema error: No field named _vf_order")
    else if (1 <? name_matches (df_schema df) "_vf_order")%nat
    then Err (External "Schema error: Ambiguous reference to unqualified field _vf_order")
    else Ok (sort_by_order_col df).
Proof.
  unfold DataFrame_sort, order_sort, sort_unqualified_refs. simpl.
  destruct (name_matches _ _ =? 0)%nat; [reflexivity|].
  destruct (1 <? name_matches _ _)%nat; reflexivity.
Qed.

Section WithRuntime.
Context `{PipelineRuntime}.

Lemma run_transforms_app pre rest df o c :
  run_transforms (pre ++ rest) df o c
  = bind (run_transforms pre df o c) (fun r => run_transforms rest r.1.1 r.1.2 r.2).
Proof.
  revert df o c. induction pre as [|tx pre IH]; intros df o c; simpl; [reflexivity|].
  destruct (tx_eval tx df c) as [[df' vals]|e]; simpl; [|reflexivity].
  destruct (has_order_col df'); simpl; [|reflexivity].
  destruct (collect_outputs _ _ _ _) as [[o' c']|e]; simpl; [apply IH|reflexivity].
Qed.

Lemma build_dataframe_ok iter_order pipeline sql_df config df signals :
  build_dataframe iter_order pipeline sql_df config = Ok (df, signals) ->
  has_order_col sql_df = true
  /\ exists df_last outs cfg,
       run_transforms (transforms pipeline) sql_df [] config = Ok (df_last, outs, cfg)
       /\ DataFrame_sort df_last order_sort = Ok df
       /\ df = sort_by_order_col df_last
       /\ signals = map snd (sort_outputs iter_order outs).
Proof.
  unfold build_dataframe. destruct (has_order_col sql_df); cbn [negb bind]; [|discriminate].
  destruct (run_transforms _ _ _ _) as [[[df_last outs] cfg]|e]; cbn [bind]; [|discriminate].
  pose proof (DataFrame_sort_order_sort df_last) as Hs.
  destruct (DataFrame_sort df_last order_sort) as [d|e] eqn:Hd; cbn [bind]; [|discriminate].
  intros Hok; injection Hok as <- <-. split; [reflexivity|].
  exists df_last, outs, cfg. split; [reflexivity|]. split; [exact Hd|].
  split; [|reflexivity].
  destruct (name_matches _ _ =? 0)%nat; [discriminate|].
  destruct (1 <? name_matches _ _)%nat; [discriminate|]. congruence.
Qed.

Definition keys_ok (outs : list (Var * TaskValue.t)) : Prop :=
  NoDup (map fst outs) /\ Forall (fun kv => var_namespace kv.1 = Signal) outs.

Lemma map_insert_keys_ok k v outs :
  var_namespace k = Signal -> keys_ok outs -> keys_ok (map_insert k v outs).
Proof.
  intros Hk [Hnd Hf]. unfold map_insert. split.
  - simpl. constructor.
    + intros Hin. apply list_elem_of_fmap in Hin as [[k' v'] [Hk' Hin]].
      apply list_elem_of_filter in Hin as [Hne _]. simpl in *. congruence.
    + clear Hf. induction outs as [|[k' v'] outs IH]; [constructor|].
      simpl in Hnd. apply NoDup_cons in Hnd as [Hn Hnd].
      rewrite filter_cons. destruct (decide _); simpl; [|auto].
      constructor; [|auto]. intros Hin. apply Hn.
      apply list_elem_of_In in Hin. apply list_elem_of_In.
      apply in_map_iff in Hin as [[k'' v''] [Heq Hin]]. simpl in Heq. subst k''.
      apply list_elem_of_In, list_elem_of_filter, proj2, list_elem_of_In in Hin.
      apply in_map_iff. exists (k', v''). auto.
  - constructor; [exact Hk|]. apply Forall_forall. intros x Hx.
    apply list_elem_of_filter in Hx as [_ Hx]. rewrite Forall_forall in Hf. auto.
Qed.

Lemma collect_outputs_keys_ok vars vals outs config outs' config' :
  forallb (fun v => match var_namespace v with Signal => true | _ => false end) vars = true ->
  keys_ok outs -> collect_outputs vars vals outs config = Ok (outs', config') -> keys_ok outs'.
Proof.
  revert vals outs config. induction vars as [|var vars IH]; intros [|val vals] outs config;
    simpl; intros Hs Hk Hc; try (injection Hc as <- <-; exact Hk).
  apply andb_prop in Hs as [Hv Hs].
  destruct (var_namespace var) eqn:Hns; try discriminate.
  destruct (as_scalar val); simpl in Hc; [|discriminate].
  eapply IH; [exact Hs| |exact Hc]. apply map_insert_keys_ok; assumption.
Qed.

Lemma run_transforms_keys_ok txs df outs config df' outs' config' :
  forallb (fun tx => forallb (fun v => match var_namespace v with Signal => true | _ => false end)
                       (output_vars tx)) txs = true ->
  keys_ok outs -> run_transforms txs df outs config = Ok (df', outs', config') -> keys_ok outs'.
Proof.
  revert df outs config. induction txs as [|tx txs IH]; intros df outs config; simpl.
  - intros _ Hk Hr. injection Hr as <- <- <-. exact Hk.
  - intros Hs Hk. apply andb_prop in Hs as [Htx Hs].
    destruct (tx_eval tx df config) as [[d vals]|e]; simpl; [|discriminate].
    destruct (has_order_col d); simpl; [|discriminate].
    destruct (collect_outputs _ _ _ _) as [[o c]|e] eqn:Hc; simpl; [|discriminate].
    apply IH; [exact Hs|]. eapply collect_outputs_keys_ok; eauto.
Qed.

Lemma run_transforms_order_col txs df outs config df' outs' config' :
  has_order_col df = true ->
  run_transforms txs df outs config = Ok (df', outs', config') -> has_order_col df' = true.
Proof.
  revert df outs config. induction txs as [|tx txs IH]; intros df outs config; simpl.
  - intros Hd Hr. injection Hr as <- <- <-. exact Hd.
  - intros _. destruct (tx_eval tx df config) as [[d vals]|e]; simpl; [|discriminate].
    destruct (has_order_col d) eqn:Hd; simpl; [|discriminate].
    destruct (collect_outputs _ _ _ _) as [[o c]|e]; simpl; [|discriminate].
    apply IH. exact Hd.
Qed.

End WithRuntime.

Lemma has_order_col_spec df : has_order_col df = true <-> "_vf_order" ∈ df_schema df.
Proof.
  unfold has_order_col. rewrite existsb_exists, list_elem_of_In. split.
  - intros [x [Hin Heq]]. apply String.eqb_eq in Heq. subst x. exact Hin.
  - intros Hin. exists "_vf_order"%string. split; [exact Hin|]. apply String.eqb_refl.
Qed.

Lemma has_order_col_false df : has_order_col df = false <-> "_vf_order" ∉ df_schema df.
Proof.
  rewrite <- has_order_col_spec. destruct (has_order_col df); split; congruence.
Qed.


#[global] Instance Variable_le_total : Total Variable_le.
Proof.
  intros [na a] [nb b]. unfold Variable_le; simpl.
  destruct na, nb; simpl; try (left; left; lia); try (right; left; lia);
    (destruct (total String.le a b); [left|right]; right; auto).
Qed.

#[global] Instance Variable_le_trans : Transitive Variable_le.
Proof.
  intros [na a] [nb b] [nc c]. unfold Variable_le; simpl.
  intros [H1|[-> H1]] [H2|[-> H2]]; auto with lia.
  right. split; [reflexivity|]. etrans; eauto.
Qed.

Lemma Variable_le_antisym a b : Variable_le a b -> Variable_le b a -> a = b.
Proof.
  destruct a as [na a], b as [nb b]. unfold Variable_le; simpl.
  intros [H1|[-> H1]] [H2|[? H2]]; subst; try lia.
  f_equal. apply (anti_symm String.le); assumption.
Qed.

#[global] Instance entry_le_total : Total entry_le.
Proof. intros a b. apply Variable_le_total. Qed.
#[global] Instance entry_le_trans : Transitive entry_le.
Proof. intros a b c. apply Variable_le_trans. Qed.

Lemma NoDup_fst_eq {A B} (l : list (A * B)) x y :
  NoDup (map fst l) -> x ∈ l -> y ∈ l -> x.1 = y.1 -> x = y.
Proof.
  induction l as [|z l IH]; simpl; intros Hnd Hx Hy Hxy; [inversion Hx|].
  apply NoDup_cons in Hnd as [Hz Hnd].
  apply elem_of_cons in Hx as [->|Hx]; apply elem_of_cons in Hy as [->|Hy]; auto.
  - destruct Hz. rewrite Hxy. apply list_elem_of_fmap_2. exact Hy.
  - destruct Hz. rewrite <- Hxy. apply list_elem_of_fmap_2. exact Hx.
Qed.

Lemma sort_outputs_Permutation iter_order outs :
  (forall l, Permutation (iter_order l) l) -> Permutation (sort_outputs iter_order outs) outs.
Proof.
  intros Hiter. unfold sort_outputs. etrans; [apply merge_sort_Permutation|]. apply Hiter.
Qed.

Lemma sort_outputs_stable iter1 iter2 outs :
  (forall l, Permutation (iter1 l) l) -> (forall l, Permutation (iter2 l) l) ->
  NoDup (map fst outs) -> sort_outputs iter1 outs = sort_outputs iter2 outs.
Proof.
  intros H1 H2 Hnd. apply (Sorted_unique_strong entry_le).
  - intros x y Hx Hy Hxy Hyx.
    rewrite (sort_outputs_Permutation _ _ H1) in Hx. rewrite (sort_outputs_Permutation _ _ H2) in Hy.
    apply (NoDup_fst_eq outs); auto. apply Variable_le_antisym; assumption.
  - apply Sorted_merge_sort. apply _.
  - apply Sorted_merge_sort. apply _.
  - etrans; [apply sort_outputs_Permutation; exact H1|].
    symmetry. apply sort_outputs_Permutation. exact H2.
Qed.

Lemma Sorted_weaken {A} (R R' : A -> A -> Prop) (P : A -> Prop) l :
  (forall a b, P a -> P b -> R a b -> R' a b) -> Forall P l -> Sorted R l -> Sorted R' l.
Proof.
  intros HR. induction l as [|a l IH]; intros Hf Hs; [constructor|].
  inversion Hf as [|? ? Ha Hl]; subst. inversion Hs as [|? ? Hs' Hh]; subst.
  constructor; [auto|]. destruct l as [|b l]; constructor.
  inversion Hh; subst. inversion Hl; subst. auto.
Qed.
End PipelineFacts.

Module PipelineClaims.
Import Pipeline PipelineExample PipelineFacts.

(** C5: if the input frame has no [_vf_order] column, [build_dataframe],
    [eval_sql] and [eval_to_df] fail with the internal missing-order-column
    error, the same result as for the empty pipeline, so no transform is
    evaluated; if the input has the column and some transform's output lacks
    it, evaluation fails with the internal error naming that transform, and
    no frame or signal value is returned. *)
Theorem missing_order_column_is_internal_error `{PipelineRuntime} iter_order
    (pipeline : TransformPipeline Transform) (config : CompilationConfig) :
  (forall sql_df, "_vf_order" ∉ df_schema sql_df ->
     build_dataframe iter_order pipeline sql_df config
       = Err (Internal "DataFrame input to eval_sql does not have the expected _vf_order ordering column")
     /\ build_dataframe iter_order pipeline sql_df config
        = build_dataframe iter_order (mkTransformPipeline []) sql_df config
     /\ eval_sql iter_order pipeline sql_df config
        = Err (Internal "DataFrame input to eval_sql does not have the expected _vf_order ordering column")
     /\ eval_to_df iter_order pipeline sql_df config
        = Err (Internal "DataFrame input to eval_sql does not have the expected _vf_order ordering column"))
  /\ (forall pre tx post sql_df df_k outs_k cfg_k df' vals,
        transforms pipeline = (pre ++ tx :: post)%list ->
        "_vf_order" ∈ df_schema sql_df ->
        run_transforms pre sql_df [] config = Ok (df_k, outs_k, cfg_k) ->
        tx_eval tx df_k cfg_k = Ok (df', vals) ->
        "_vf_order" ∉ df_schema df' ->
        let err := Internal ("DataFrame output of transform does not have the expected _vf_order ordering column: "
                             ++ tx_debug tx) in
        build_dataframe iter_order pipeline sql_df config = Err err
        /\ eval_sql iter_order pipeline sql_df config = Err err
        /\ eval_to_df iter_order pipeline sql_df config = Err err).
Proof.
  split.
  - intros sql_df Hin. apply has_order_col_false in Hin.
    unfold eval_sql, eval_to_df, build_dataframe. rewrite Hin. simpl. auto.
  - intros pre tx post sql_df df_k outs_k cfg_k df' vals Htx Hin Hpre Heval Hout err.
    apply has_order_col_spec in Hin. apply has_order_col_false in Hout.
    assert (Hb : build_dataframe iter_order pipeline sql_df config = Err err).
    { unfold build_dataframe. rewrite Hin, Htx, run_transforms_app, Hpre. simpl.
      rewrite Heval. simpl. rewrite Hout. reflexivity. }
    unfold eval_sql, eval_to_df. rewrite Hb. auto.
Qed.

Lemma missing_order_column_is_internal_error_witness :
  build_dataframe (fun l => l) (mkTransformPipeline [extent_tx; drop_tx; bin_tx])
    (mkDataFrame (DataFusion.TableScan "movies" ["title"]) ["title"]) empty_config
  = Err (Internal "DataFrame input to eval_sql does not have the expected _vf_order ordering column")
  /\ eval_sql (fun l => l) (mkTransformPipeline [extent_tx; drop_tx; bin_tx]) input_df empty_config
     = Err (Internal "DataFrame output of transform does not have the expected _vf_order ordering column: ExampleTransform").
Proof.
  pose proof (missing_order_column_is_internal_error (fun l => l)
                (mkTransformPipeline [extent_tx; drop_tx; bin_tx]) empty_config) as [W1 W2].
  split.
  - apply (W1 (mkDataFrame (DataFusion.TableScan "movies" ["title"]) ["title"])). apply (bool_decide_unpack _); vm_compute; reflexivity.
  - eapply (W2 [extent_tx] drop_tx [bin_tx] input_df).
    + reflexivity.
    + apply (bool_decide_unpack _); vm_compute; reflexivity.
    + vm_compute. reflexivity.
    + reflexivity.
    + apply (bool_decide_unpack _); vm_compute; reflexivity.
Defined.

(** C6: when every transform of the pipeline emits only signal variables
    (the transform contract of the spec), and whatever order the output map
    is iterated in, the signal values returned by a successful
    [build_dataframe] are the values of the final output entries, one per
    variable, in ascending order of variable name; and the same result is
    returned for every iteration order of the map. *)
Theorem signals_sorted_by_variable_name `{PipelineRuntime}
    (iter_order : list (Var * TaskValue.t) -> list (Var * TaskValue.t))
    (pipeline : TransformPipeline Transform) (sql_df : DataFrame) (config : CompilationConfig)
    (df : DataFrame) (signals : list TaskValue.t)
    (Hsignal : emits_only_signals pipeline = true)
    (Hiter : forall l, Permutation (iter_order l) l)
    (Hok : build_dataframe iter_order pipeline sql_df config = Ok (df, signals)) :
  exists outs df_last cfg entries,
    run_transforms (transforms pipeline) sql_df [] config = Ok (df_last, outs, cfg)
    /\ Permutation entries outs
    /\ NoDup (map fst entries)
    /\ signals = map snd entries
    /\ Sorted (fun a b => String.le (var_name a.1) (var_name b.1)) entries
    /\ (forall iter_order', (forall l, Permutation (iter_order' l) l) ->
          build_dataframe iter_order' pipeline sql_df config = Ok (df, signals)).
Proof.
  apply build_dataframe_ok in Hok as [Hord [df_last [outs [cfg [Hrun [Hsort [Hdf Hsig]]]]]]].
  assert (Hk : keys_ok outs).
  { refine (run_transforms_keys_ok _ _ [] _ _ _ _ Hsignal _ Hrun). split; constructor. }
  destruct Hk as [Hnd Hf].
  pose proof (sort_outputs_Permutation iter_order outs Hiter) as Hp.
  exists outs, df_last, cfg, (sort_outputs iter_order outs).
  split; [exact Hrun|]. split; [exact Hp|].
  split; [rewrite Hp; exact Hnd|]. split; [exact Hsig|]. split.
  - apply (Sorted_weaken entry_le _ (fun kv => var_namespace kv.1 = Signal)).
    + intros [a va] [b vb] Ha Hb. unfold entry_le, Variable_le. simpl in *.
      rewrite Ha, Hb. simpl. intros [Hlt|[_ Hle]]; [lia|exact Hle].
    + rewrite Hp. exact Hf.
    + unfold sort_outputs. apply Sorted_merge_sort. apply _.
  - intros iter' Hiter'. unfold build_dataframe. rewrite Hord, Hrun. simpl.
    rewrite (sort_outputs_stable iter' iter_order outs Hiter' Hiter Hnd).
    subst. rewrite Hsort. reflexivity.
Qed.

Lemma signals_sorted_by_variable_name_witness :
  exists outs df_last cfg entries,
    run_transforms [extent_tx; bin_tx] input_df [] empty_config = Ok (df_last, outs, cfg)
    /\ Permutation entries outs
    /\ NoDup (map fst entries)
    /\ [one 1; one 8; one 2] = map snd entries
    /\ Sorted (fun a b => String.le (var_name a.1) (var_name b.1)) entries
    /\ (forall iter_order', (forall l, Permutation (iter_order' l) l) ->
          build_dataframe iter_order' (mkTransformPipeline [extent_tx; bin_tx]) input_df empty_config
          = Ok (sort_by_order_col input_df, [one 1; one 8; one 2])).
Proof.
  apply (@signals_sorted_by_variable_name example_pipeline_runtime (@rev _) (mkTransformPipeline [extent_tx; bin_tx])
           input_df empty_config (sort_by_order_col input_df) [one 1; one 8; one 2]).
  - reflexivity.
  - intros l. symmetry. apply Permutation_rev.
  - vm_compute. reflexivity.
Defined.

(** C7: a successful [build_dataframe] returns the output frame of the last
    transform (the input frame for an empty pipeline) under a final sort on
    the column [_vf_order], ascending, nulls last, with the same schema,
    which still contains [_vf_order]; [eval_to_df] returns that frame and
    [eval_sql] collects it. *)
Theorem result_sorted_by_order_column `{PipelineRuntime} iter_order
    (pipeline : TransformPipeline Transform) (sql_df : DataFrame) (config : CompilationConfig)
    (df : DataFrame) (signals : list TaskValue.t)
    (Hok : build_dataframe iter_order pipeline sql_df config = Ok (df, signals)) :
  exists df_last outs cfg,
    run_transforms (transforms pipeline) sql_df [] config = Ok (df_last, outs, cfg)
    /\ logical_plan df = DataFusion.SortNode
                           [DataFusion.mkSort (DataFusion.Column None "_vf_order") true false]
                           (logical_plan df_last) None
    /\ df_schema df = df_schema df_last
    /\ "_vf_order" ∈ df_schema df
    /\ (transforms pipeline = [] -> df_last = sql_df)
    /\ (forall pre tx, transforms pipeline = (pre ++ [tx])%list ->
          exists df_k outs_k cfg_k vals,
            run_transforms pre sql_df [] config = Ok (df_k, outs_k, cfg_k)
            /\ tx_eval tx df_k cfg_k = Ok (df_last, vals))
    /\ eval_to_df iter_order pipeline sql_df config = Ok (df, signals)
    /\ eval_sql iter_order pipeline sql_df config
       = bind (collect_to_table df) (fun table => Ok (table, signals)).
Proof.
  pose proof Hok as Hb.
  apply build_dataframe_ok in Hok as [Hord [df_last [outs [cfg [Hrun [Hsort [Hdf Hsig]]]]]]].
  exists df_last, outs, cfg. subst df.
  split; [exact Hrun|]. split; [reflexivity|]. split; [reflexivity|].
  split; [apply has_order_col_spec; exact (run_transforms_order_col _ _ _ _ _ _ _ Hord Hrun)|].
  split.
  { intros Hnil. rewrite Hnil in Hrun. simpl in Hrun. congruence. }
  split.
  { intros pre tx Htx. rewrite Htx, run_transforms_app in Hrun.
    destruct (run_transforms pre sql_df [] config) as [[[df_k outs_k] cfg_k]|e];
      simpl in Hrun; [|discriminate].
    exists df_k, outs_k, cfg_k. simpl in Hrun.
    destruct (tx_eval tx df_k cfg_k) as [[d vals]|e]; simpl in Hrun; [|discriminate].
    exists vals. split; [reflexivity|].
    destruct (negb (has_order_col d)); [discriminate|].
    destruct (collect_outputs _ _ _ _) as [[o c]|e]; simpl in Hrun; [|discriminate].
    simpl in Hrun. congruence. }
  unfold eval_to_df, eval_sql. rewrite Hb. simpl. auto.
Qed.

Lemma result_sorted_by_order_column_witness :
  exists df_last outs cfg,
    run_transforms [extent_tx; bin_tx] input_df [] empty_config = Ok (df_last, outs, cfg)
    /\ logical_plan (sort_by_order_col input_df) = DataFusion.SortNode
                           [DataFusion.mkSort (DataFusion.Column None "_vf_order") true false]
                           (logical_plan df_last) None
    /\ df_schema (sort_by_order_col input_df) = df_schema df_last
    /\ "_vf_order" ∈ df_schema (sort_by_order_col input_df)
    /\ ([extent_tx; bin_tx] = [] -> df_last = input_df)
    /\ (forall pre tx, [extent_tx; bin_tx] = (pre ++ [tx])%list ->
          exists df_k outs_k cfg_k vals,
            run_transforms pre input_df [] empty_config = Ok (df_k, outs_k, cfg_k)
            /\ tx_eval tx df_k cfg_k = Ok (df_last, vals))
    /\ eval_to_df (fun l => l) (mkTransformPipeline [extent_tx; bin_tx]) input_df empty_config
       = Ok (sort_by_order_col input_df, [one 1; one 8; one 2])
    /\ eval_sql (fun l => l) (mkTransformPipeline [extent_tx; bin_tx]) input_df empty_config
       = bind (collect_to_table (sort_by_order_col input_df)) (fun table => Ok (table, [one 1; one 8; one 2])).
Proof.
  apply (@result_sorted_by_order_column example_pipeline_runtime (fun l => l) (mkTransformPipeline [extent_tx; bin_tx])
           input_df empty_config).
  vm_compute. reflexivity.
Defined.

End PipelineClaims.

Module PureAggFacts.
Import DataFusion PureAgg.
Local Open Scope list_scope.

(** The entries the rewriter appends for the aggregates [aggs], starting
    at id [k]: each next id is [usize_incr] of the previous one. *)
Fixpoint extracted (k : N) (aggs : list Expr) : list Expr :=
  match aggs with
  | [] => []
  | a :: aggs' => Expr_alias a (agg_name k) :: extracted (usize_incr k) aggs'
  end.

(** [r'] is [r] after extracting the aggregates [aggs], in order. *)
Definition rw_ok (r : PureAggRewriter) (aggs : list Expr) (r' : PureAggRewriter) : Prop :=
  pure_aggs r' = pure_aggs r ++ extracted (next_id r) aggs
  /\ next_id r' = Nat.iter (length aggs) usize_incr (next_id r).

(** [sum(a) / count(a)]. *)
Definition sample_agg_expr : Expr :=
  BinaryExpr (AggregateFunction "sum" [col "a"] false) OpDivide
             (AggregateFunction "count" [col "a"] false).

(** A rewriter reachable from [new]: its entries are [_agg_0], [_agg_1], ...
    and [next_id] counts them. *)
Definition wf_rewriter (r : PureAggRewriter) : Prop :=
  exists xs, pure_aggs r = aliased_from 0 xs /\ next_id r = N.of_nat (length xs).

Definition rewrite_fuel_ok (e : Expr) : Prop :=
  forall fuel r, expr_size e <= fuel ->
    rw_ok r (outer_aggs e) (rewrite_fuel fuel r e).2 /\ outer_aggs (rewrite_fuel fuel r e).1 = [].

Lemma extracted_app k xs ys :
  extracted k (xs ++ ys) = extracted k xs ++ extracted (Nat.iter (length xs) usize_incr k) ys.
Proof.
  revert k. induction xs as [|x xs IH]; intros k; simpl; [reflexivity|].
  rewrite IH, <- Nat.iter_succ_r. reflexivity.
Qed.

Lemma aliased_from_app k xs ys :
  aliased_from k (xs ++ ys) = aliased_from k xs ++ aliased_from (k + N.of_nat (length xs)) ys.
Proof.
  revert k. induction xs as [|x xs IH]; intros k; simpl.
  - rewrite N.add_0_r. reflexivity.
  - rewrite IH. do 3 f_equal. lia.
Qed.

Lemma rw_ok_nil r : rw_ok r [] r.
Proof. unfold rw_ok. simpl. rewrite app_nil_r. split; reflexivity. Qed.

Lemma rw_ok_trans r a r1 b r2 : rw_ok r a r1 -> rw_ok r1 b r2 -> rw_ok r (a ++ b) r2.
Proof.
  unfold rw_ok. intros [Ha Na] [Hb Nb]. rewrite Hb, Ha, Nb, Na, extracted_app, length_app.
  split; [symmetry; apply app_assoc|].
  rewrite Nat.add_comm, Nat.iter_add. reflexivity.
Qed.

(** Below [usize::MAX] the increment does not wrap. *)
Lemma usize_incr_small k : (k < usize_MAX)%N -> usize_incr k = (k + 1)%N.
Proof. unfold usize_incr, usize_MAX. intros H. apply N.mod_small. lia. Qed.

Lemma iter_usize_incr_small n k :
  (k + N.of_nat n <= usize_MAX)%N -> Nat.iter n usize_incr k = (k + N.of_nat n)%N.
Proof.
  revert k. induction n as [|n IH]; intros k Hk; [simpl; lia|].
  rewrite Nat.iter_succ_r, usize_incr_small by lia. rewrite IH by lia. lia.
Qed.

Lemma extracted_small k aggs :
  (k + N.of_nat (length aggs) <= usize_MAX)%N -> extracted k aggs = aliased_from k aggs.
Proof.
  revert k. induction aggs as [|a aggs IH]; intros k Hk; simpl in *; [reflexivity|].
  rewrite usize_incr_small by lia. rewrite IH by lia. do 2 f_equal. lia.
Qed.

Lemma concat_map_nil {A} (f : A -> list Expr) l :
  Forall (fun x => f x = []) l -> concat (map f l) = [].
Proof. induction 1 as [|x l Hx _ IH]; simpl; [reflexivity|]. rewrite Hx, IH. reflexivity. Qed.

Lemma Forall_zip_with_sort (Q : Expr -> Prop) (es : list Expr) (l : list (Sort Expr)) :
  Forall Q es ->
  Forall (fun s => Q (sort_expr s)) (zip_with (fun e so => mkSort e (sort_asc so) (sort_nulls_first so)) es l).
Proof.
  intros Hes. revert l. induction Hes as [|e es He _ IH]; intros [|so l]; simpl; constructor; auto.
Qed.

Lemma map_list_st_ok (l : list Expr) fuel r :
  LAll rewrite_fuel_ok l -> list_sum (map expr_size l) <= fuel ->
  rw_ok r (concat (map outer_aggs l)) (map_list_st (rewrite_fuel fuel) r l).2
  /\ Forall (fun e => outer_aggs e = []) (map_list_st (rewrite_fuel fuel) r l).1.
Proof.
  revert r. induction l as [|x l IH]; intros r Hl Hs; simpl.
  - split; [apply rw_ok_nil|constructor].
  - destruct Hl as [Hx Hl]. simpl in Hs.
    destruct (rewrite_fuel fuel r x) as [x' r1] eqn:E1.
    destruct (map_list_st (rewrite_fuel fuel) r1 l) as [l' r2] eqn:E2. simpl.
    pose proof (Hx fuel r ltac:(lia)) as [H1 N1]. rewrite E1 in H1, N1. simpl in H1, N1.
    pose proof (IH r1 Hl ltac:(lia)) as [H2 N2]. rewrite E2 in H2, N2. simpl in H2, N2.
    split; [eapply rw_ok_trans; eauto|constructor; auto].
Qed.

Lemma list_sum_map_sort (ob : list (Sort Expr)) :
  list_sum (map expr_size (map sort_expr ob)) = list_sum (map (fun s => expr_size (sort_expr s)) ob).
Proof. rewrite map_map. reflexivity. Qed.

Lemma rewrite_fuel_correct e : rewrite_fuel_ok e.
Proof.
  induction e as [q n|v|l op rr IHl IHr|x q n IHx|x IHx|f a IHa|f a d IHa|f a pb ob fr IHa IHpb IHob]
    using Expr_ind'; intros fuel r Hs; (destruct fuel as [|fuel]; [simpl in Hs; lia|]); simpl in Hs |- *.
  - split; [apply rw_ok_nil|reflexivity].
  - split; [apply rw_ok_nil|reflexivity].
  - destruct (rewrite_fuel fuel r l) as [l' r1] eqn:E1.
    destruct (rewrite_fuel fuel r1 rr) as [r' r2] eqn:E2. simpl.
    pose proof (IHl fuel r ltac:(lia)) as [H1 N1]. rewrite E1 in H1, N1. simpl in H1, N1.
    pose proof (IHr fuel r1 ltac:(lia)) as [H2 N2]. rewrite E2 in H2, N2. simpl in H2, N2.
    split; [eapply rw_ok_trans; eauto|rewrite N1, N2; reflexivity].
  - destruct (rewrite_fuel fuel r x) as [x' r1] eqn:E1. simpl.
    pose proof (IHx fuel r ltac:(lia)) as [H1 N1]. rewrite E1 in H1, N1. auto.
  - destruct (rewrite_fuel fuel r x) as [x' r1] eqn:E1. simpl.
    pose proof (IHx fuel r ltac:(lia)) as [H1 N1]. rewrite E1 in H1, N1. auto.
  - destruct (map_list_st (rewrite_fuel fuel) r a) as [a' r1] eqn:E1. simpl.
    pose proof (map_list_st_ok a fuel r IHa ltac:(lia)) as [H1 N1]. rewrite E1 in H1, N1.
    split; [exact H1|apply concat_map_nil; exact N1].
  - unfold rw_ok. simpl. split; [split; reflexivity|reflexivity].
  - destruct (map_list_st (rewrite_fuel fuel) r a) as [a' r1] eqn:E1.
    destruct (map_list_st (rewrite_fuel fuel) r1 pb) as [pb' r2] eqn:E2.
    unfold map_sorts_st.
    destruct (map_list_st (rewrite_fuel fuel) r2 (map sort_expr ob)) as [es r3] eqn:E3. simpl.
    pose proof (map_list_st_ok a fuel r IHa ltac:(lia)) as [H1 N1]. rewrite E1 in H1, N1.
    pose proof (map_list_st_ok pb fuel r1 IHpb ltac:(lia)) as [H2 N2]. rewrite E2 in H2, N2.
    pose proof (map_list_st_ok (map sort_expr ob) fuel r2
                  (LAll_map _ _ _ IHob) ltac:(rewrite list_sum_map_sort; lia)) as [H3 N3].
    rewrite E3 in H3, N3. simpl in *. rewrite map_map in H3.
    split.
    + eapply rw_ok_trans; [exact H1|]. eapply rw_ok_trans; [exact H2|exact H3].
    + rewrite (concat_map_nil _ _ N1), (concat_map_nil _ _ N2).
      apply (concat_map_nil (fun s => outer_aggs (sort_expr s))).
      apply (Forall_zip_with_sort (fun e => outer_aggs e = [])). exact N3.
Qed.

Lemma rewrite_correct e self e' self' :
  rewrite e self = (e', self') -> rw_ok self (outer_aggs e) self' /\ outer_aggs e' = [].
Proof.
  unfold rewrite. intros Hr. pose proof (rewrite_fuel_correct e (expr_size e) self (le_n _)) as H.
  rewrite Hr in H. exact H.
Qed.

Lemma agg_name_inj i j : agg_name i = agg_name j -> i = j.
Proof. unfold agg_name. cbn. intros H. injection H as H. exact (pretty_N_inj i j H). Qed.

Lemma aliased_from_names k l x :
  In x (aliased_from k l) -> exists i, (k <= i)%N /\ alias_name x = Some (agg_name i).
Proof.
  revert k. induction l as [|a l IH]; intros k; simpl; [tauto|].
  intros [<-|Hin]; [exists k; split; [lia|reflexivity]|].
  destruct (IH (N.succ k) Hin) as [i [Hi Hx]]. exists i. split; [lia|exact Hx].
Qed.

Lemma aliased_from_NoDup k l : NoDup (map alias_name (aliased_from k l)).
Proof.
  revert k. induction l as [|a l IH]; intros k; simpl; constructor; [|apply IH].
  intros Hin. apply list_elem_of_In, in_map_iff in Hin as [x [Hx Hin]].
  destruct (aliased_from_names (N.succ k) l x Hin) as [i [Hi Hx']].
  rewrite Hx' in Hx. assert (Hik : agg_name i = agg_name k) by congruence.
  apply agg_name_inj in Hik. lia.
Qed.

Lemma aliased_from_length k l : length (aliased_from k l) = length l.
Proof. revert k. induction l as [|a l IH]; intros k; simpl; [reflexivity|]. rewrite IH. reflexivity. Qed.
End PureAggFacts.

Module PureAggClaims.
Import DataFusion PureAgg PureAggFacts.
Local Open Scope list_scope.

(** C10: [f_down] replaces an aggregate node by the column [_agg_i], with
    [i] the rewriter's [next_id], appends the aggregate aliased to that name
    to [pure_aggs] and increments [next_id]; it leaves every other node and
    the rewriter unchanged.  Rewriting an expression appends one aliased
    entry per replaced aggregate node, numbered on from [next_id], and no
    aggregate remains in the result.  From [new], [next_id] is the number
    of entries of [pure_aggs] (aggregates extracted so far) and the alias
    names of [pure_aggs] are pairwise distinct, across any number of
    rewrites.  [next_id] is a [usize]: the statements that increment it
    assume it stays within [usize::MAX], which holds from [new], where
    [next_id] is the length of the vector [pure_aggs]. *)
Theorem pure_agg_rewriter_spec :
  (forall self f a d, (next_id self < usize_MAX)%N ->
     f_down self (AggregateFunction f a d)
     = (Column None (agg_name (next_id self)),
        mkPureAggRewriter (pure_aggs self ++ [Alias (AggregateFunction f a d) None (agg_name (next_id self))])
          (next_id self + 1)%N))
  /\ (forall self e, (forall f a d, e <> AggregateFunction f a d) -> f_down self e = (e, self))
  /\ (forall e self e' self',
        (next_id self + N.of_nat (length (outer_aggs e)) <= usize_MAX)%N ->
        rewrite e self = (e', self') ->
        pure_aggs self' = pure_aggs self ++ aliased_from (next_id self) (outer_aggs e)
        /\ next_id self' = (next_id self + N.of_nat (length (outer_aggs e)))%N
        /\ outer_aggs e' = [])
  /\ wf_rewriter new
  /\ (forall e self e' self', wf_rewriter self ->
        (next_id self + N.of_nat (length (outer_aggs e)) <= usize_MAX)%N ->
        rewrite e self = (e', self') -> wf_rewriter self')
  /\ (forall self, wf_rewriter self ->
        next_id self = N.of_nat (length (pure_aggs self)) /\ NoDup (map alias_name (pure_aggs self))).
Proof.
  assert (Hrw : forall e self e' self',
        (next_id self + N.of_nat (length (outer_aggs e)) <= usize_MAX)%N ->
        rewrite e self = (e', self') ->
        pure_aggs self' = pure_aggs self ++ aliased_from (next_id self) (outer_aggs e)
        /\ next_id self' = (next_id self + N.of_nat (length (outer_aggs e)))%N
        /\ outer_aggs e' = []).
  { intros e self e' self' Hb Hr. destruct (rewrite_correct e self e' self' Hr) as [[H1 H2] H3].
    rewrite H1, H2, extracted_small, iter_usize_incr_small by exact Hb. auto. }
  split.
  { intros self f a d Hb. cbn [f_down new_agg_name pure_aggs next_id].
    rewrite usize_incr_small by exact Hb. reflexivity. }
  split.
  { intros self [q n|v|l op r|x q n|x|f a|f a d|f a pb ob fr] Hne; try reflexivity.
    destruct (Hne f a d eq_refl). }
  split; [exact Hrw|].
  split; [exists []; split; reflexivity|]. split.
  { intros e self e' self' [xs [Hp Hn]] Hb Hr.
    destruct (Hrw e self e' self' Hb Hr) as [H1 [H2 _]].
    exists (xs ++ outer_aggs e). rewrite H1, H2, Hp, Hn, aliased_from_app, length_app. split; [reflexivity|lia]. }
  intros self [xs [Hp Hn]]. rewrite Hp, Hn, aliased_from_length.
  split; [reflexivity|apply aliased_from_NoDup].
Qed.

Lemma pure_agg_rewriter_spec_witness :
  NoDup (map alias_name (pure_aggs (rewrite sample_agg_expr new).2))
  /\ rewrite sample_agg_expr new
     = (BinaryExpr (col "_agg_0") OpDivide (col "_agg_1"),
        mkPureAggRewriter [Expr_alias (AggregateFunction "sum" [col "a"] false) "_agg_0";
                           Expr_alias (AggregateFunction "count" [col "a"] false) "_agg_1"] 2).
Proof.
  destruct pure_agg_rewriter_spec as (_ & _ & _ & Hnew & Hpres & Hnd).
  split.
  - apply (Hnd _ (Hpres sample_agg_expr new _ _ Hnew
                    ltac:(apply N.leb_le; vm_compute; reflexivity) (surjective_pairing _))).
  - vm_compute. reflexivity.
Defined.
End PureAggClaims.

(** ** Further properties of the pipeline runner *)
Module PipelineMoreFacts.
Import Pipeline PipelineFacts.
Local Open Scope list_scope.









Section WithRuntime.
Context `{PipelineRuntime}.






End WithRuntime.
End PipelineMoreFacts.

(** A pipeline runtime whose transforms may fail. *)
Module PipelineExample2.
Import Pipeline.



Definition one (n : Z) : TaskValue.t := TaskValue.Scalar (DataFusion.Int64 (Some n)).
End PipelineExample2.

Module PipelineExtras.
Import Pipeline PipelineFacts PipelineMoreFacts PipelineExample2.
Local Open Scope list_scope.













End PipelineExtras.

Module TaskExtras.
Import Tasks.


(** A runtime whose protobuf decoders reject every input. *)
#[local] Instance rejecting_runtime : TaskRuntime := {|
  Expression := unit;
  CompiledExpr := unit;
  CompilationConfig := unit;
  RuntimeTzConfig := unit;
  build_compilation_config := fun _ _ _ => tt;
  compile := fun _ _ => Ok tt;
  eval_to_scalar := fun _ => Ok (DataFusion.Float64 (Some "1.0"));
  scalar_from_proto := fun _ => Err (External "invalid scalar");
  table_from_ipc_bytes := fun _ => Err (External "invalid ipc");
  DataTask := unit;
  data_task_eval := fun _ _ _ => Err (Internal "no data");
  data_task_plan := fun _ _ _ => Err (Internal "no data") |}.


End TaskExtras.

Module PureAggExtras.
Import DataFusion PureAgg PureAggFacts.
Local Open Scope list_scope.









End PureAggExtras.

Module SparkExtras.
Import SqlAst SparkAst.


Section MapComm.
Context {E : Type} (f1 g1 f2 g2 : E -> E).


End MapComm.








End SparkExtras.
